(** * stuff-org: the component store

    A shallow embedding of the component store of [stuff/main.go]:
    the relevance score ([StringScore], [Component.MatchScore]), the
    in-memory backend ([InMemoryStore]: [EditRecord], [FindById],
    [Search]) and the database backend ([DBBackend]: [FindById],
    [EditRecord], [Search]).

    Modelling choices.
    - Go [int] ids are only stored and compared, never computed with, so
      they are [Z].
    - Go strings are byte sequences: [string].
    - The scores are [float32] in the source.  Every score the program
      builds is a sum of the integers 0, 1, 2 with the weights 1, 3, 2,
      hence an integer between 0 and 12, which [float32] represents
      exactly; they are modelled in [Z].
    - [InMemoryStore.id2Component] is a [map[int]*Component]: a finite map
      from ids to *pointers*.  The conflict check of [EditRecord] compares
      pointers, so the heap is part of the model. *)

From Stdlib Require Import ZArith String Ascii List Lia Permutation Sorted.
From Stdlib Require Import DecimalString.
From stdpp Require Import base option list sorting gmap strings.

Local Open Scope Z_scope.

(** ** Records *)

(** [type Component struct] (the version the store functions are written
    against). *)
Record Component := mkComponent {
  id : Z;
  value : string;
  category : string;
  description : string;
  quantity : string;
  notes : string;
}.

Global Instance Component_eq_dec : EqDecision Component.
Proof. solve_decision. Defined.

(** [Component{id: id}]: every other field has its zero value. *)
Definition empty_Component (i : Z) : Component :=
  mkComponent i "" "" "" "" "".

Global Instance Component_inhabited : Inhabited Component :=
  populate (empty_Component 0).

Definition set_id (i : Z) (c : Component) : Component :=
  mkComponent i (value c) (category c) (description c) (quantity c) (notes c).

(** ** Scoring *)

(** [strings.Index(s, substr)]: the index of the first instance of
    [substr] in [s], or -1 if [substr] is not present in [s]. *)
Fixpoint Index (s substr : string) : Z :=
  if String.prefix substr s then 0
  else match s with
       | EmptyString => -1
       | String _ s' =>
           let i := Index s' substr in
           if i =? -1 then -1 else i + 1
       end.

(** [func StringScore(needle string, haystack string) float32] *)
Definition StringScore (needle haystack : string) : Z :=
  let i := Index haystack needle in
  if i =? -1 then 0
  else if i =? 0 then 2 (* start of string, higher match *)
  else 1.

(** [func (c *Component) MatchScore(term string) float32] *)
Definition MatchScore (c : Component) (term : string) : Z :=
  1 * StringScore term (category c) +
  3 * StringScore term (value c) +
  2 * StringScore term (description c).

(** [term] occurs in [field] at byte offset [n]. *)
Definition occurs_at (n : nat) (term field : string) : Prop :=
  ∃ pre post, field = pre +:+ term +:+ post ∧ String.length pre = n.

Definition substring_of (term field : string) : Prop :=
  ∃ n, occurs_at n term field.

(** ** The heap and the in-memory store *)

(** A pointer [*Component] is the address of a [Component] variable. *)
Abbreviation loc := nat.

(** [type InMemoryStore struct], together with the part of the heap its
    pointers point into.  The mutex [lock] is not a field here: each
    critical section is one atomic step of the model (see [step]). *)
Record InMemoryStore := mkStore {
  heap : gmap loc Component;
  id2Component : gmap Z loc;
}.

(** [func NewInMemoryStore() *InMemoryStore] *)
Definition NewInMemoryStore : InMemoryStore := mkStore ∅ ∅.

(** [*p] *)
Definition deref (h : gmap loc Component) (p : loc) : Component := h !!! p.

(** The address of a new variable: different from the address of every
    variable there is.  Variables are never reclaimed here; Go reclaims
    only a variable that no pointer reaches, and such a variable cannot
    take part in a pointer comparison. *)
Definition new_var (h : gmap loc Component) : loc := fresh (dom h).

(** [type ModifyFun func(comp *Component) bool]: the function may write
    through [comp] and returns whether to commit.  What it writes while
    it runs is the record of its result; a write through the pointer
    after it has returned, by a function that kept it, is a [Poke] event
    (see [event]). *)
Definition ModifyFun : Type := Component → Component * bool.

(** [func (s *InMemoryStore) FindById(id int) *Component]: the pointer in
    the map, [None] for [nil]. *)
Definition FindById (s : InMemoryStore) (i : Z) : option loc :=
  id2Component s !! i.

(** The record a caller of [FindById] reads through the pointer. *)
Definition record_of (s : InMemoryStore) (i : Z) : option Component :=
  p ← FindById s i; heap s !! p.

(** [EditRecord], first critical section: declare [toEdit], look [id] up
    and copy the record found (or set the id of the fresh one).  Returns
    [found] and [&toEdit]. *)
Definition EditRecord_read (s : InMemoryStore) (i : Z)
  : InMemoryStore * (option loc * loc) :=
  let toEdit := new_var (heap s) in
  let found := id2Component s !! i in
  let init := match found with
              | Some p => deref (heap s) p
              | None => empty_Component i
              end in
  (mkStore (<[toEdit := init]> (heap s)) (id2Component s), (found, toEdit)).

(** [update(&toEdit)], outside the lock. *)
Definition EditRecord_update (s : InMemoryStore) (toEdit : loc)
  (update : ModifyFun) : InMemoryStore * bool :=
  let r := update (deref (heap s) toEdit) in
  (mkStore (<[toEdit := r.1]> (heap s)) (id2Component s), r.2).

Definition conflict_msg : string :=
  "Editing conflict. Discarding this edit. Sorry.".

(** [EditRecord], the branch taken when [update] returned true: reset the
    id, then under the lock compare the map entry with [found] and store
    [&toEdit]. *)
Definition EditRecord_commit (s : InMemoryStore) (i : Z)
  (found : option loc) (toEdit : loc) : InMemoryStore * (bool * string) :=
  let h := <[toEdit := set_id i (deref (heap s) toEdit)]> (heap s) in
  if decide (id2Component s !! i = found)
  then (mkStore h (<[i := toEdit]> (id2Component s)), (true, ""))
  else (mkStore h (id2Component s), (false, conflict_msg)).

(** [func (s *InMemoryStore) EditRecord(id int, update ModifyFun)
    (bool, string)] when no other call runs between its steps. *)
Definition EditRecord (s : InMemoryStore) (i : Z) (update : ModifyFun)
  : InMemoryStore * (bool * string) :=
  let '(s1, (found, toEdit)) := EditRecord_read s i in
  let '(s2, b) := EditRecord_update s1 toEdit update in
  if b then EditRecord_commit s2 i found toEdit
  else (s2, (true, "")).

(** ** Concurrent callers of [EditRecord]

    Each goroutine that calls [EditRecord] is at one of three points: it
    has left the first critical section and is about to run [update]; it
    has run [update], which returned true, and is about to enter the
    second critical section; or it has returned. *)
Inductive thread :=
  | AtUpdate (i : Z) (update : ModifyFun) (found : option loc) (toEdit : loc)
  | AtCommit (i : Z) (found : option loc) (toEdit : loc)
  | Returned (committed : bool) (msg : string).

Record Config := mkConfig {
  store : InMemoryStore;
  threads : gmap nat thread;
}.

(** What the scheduler lets happen next: goroutine [t] calls
    [EditRecord(i, update)] and runs its first critical section; [t] runs
    its update function; [t] runs the rest of the call. *)
Inductive action :=
  | Call (t : nat) (i : Z) (update : ModifyFun)
  | Update (t : nat)
  | Commit (t : nat).

Definition step (c : Config) (a : action) : option Config :=
  match a with
  | Call t i update =>
      match threads c !! t with
      | Some (AtUpdate _ _ _ _) | Some (AtCommit _ _ _) => None
      | _ =>
          let '(s, (found, toEdit)) := EditRecord_read (store c) i in
          Some (mkConfig s (<[t := AtUpdate i update found toEdit]> (threads c)))
      end
  | Update t =>
      match threads c !! t with
      | Some (AtUpdate i update found toEdit) =>
          let '(s, b) := EditRecord_update (store c) toEdit update in
          Some (mkConfig s
                  (<[t := if b then AtCommit i found toEdit
                          else Returned true ""]> (threads c)))
      | _ => None
      end
  | Commit t =>
      match threads c !! t with
      | Some (AtCommit i found toEdit) =>
          let '(s, (ok, msg)) := EditRecord_commit (store c) i found toEdit in
          Some (mkConfig s (<[t := Returned ok msg]> (threads c)))
      | _ => None
      end
  end.

Fixpoint run (c : Config) (sched : list action) : option Config :=
  match sched with
  | [] => Some c
  | a :: sched' => c' ← step c a; run c' sched'
  end.

(** The goroutine an action belongs to. *)
Definition actor (a : action) : nat :=
  match a with Call t _ _ | Update t | Commit t => t end.

(** The variable a goroutine in the middle of a call owns. *)
Definition toEdit_of (th : thread) : option loc :=
  match th with
  | AtUpdate _ _ _ toEdit | AtCommit _ _ toEdit => Some toEdit
  | Returned _ _ => None
  end.

(** What holds of every configuration the program can reach: pointers
    point to variables that exist, a variable of a call in progress is
    not in the map yet, and no two calls in progress share a variable. *)
Record Inv (c : Config) : Prop := mkInv {
  inv_stored : ∀ i p, id2Component (store c) !! i = Some p →
               is_Some (heap (store c) !! p);
  inv_alloc : ∀ t th l, threads c !! t = Some th → toEdit_of th = Some l →
              is_Some (heap (store c) !! l);
  inv_private : ∀ t th l i, threads c !! t = Some th → toEdit_of th = Some l →
                id2Component (store c) !! i ≠ Some l;
  inv_distinct : ∀ t1 t2 th1 th2 l, threads c !! t1 = Some th1 →
                 threads c !! t2 = Some th2 →
                 toEdit_of th1 = Some l → toEdit_of th2 = Some l → t1 = t2;
}.

(** What a call in progress remembers from its first critical section:
    the id, [found] and [&toEdit]. *)
Definition call_of (th : thread) : option (Z * option loc * loc) :=
  match th with
  | AtUpdate i _ found toEdit | AtCommit i found toEdit =>
      Some (i, found, toEdit)
  | Returned _ _ => None
  end.

(** The pointer a call read is to a variable that exists and that no call
    in progress owns: it can only have come out of the map. *)
Definition unseen (c : Config) (found : option loc) : Prop :=
  (∀ p, found = Some p → is_Some (heap (store c) !! p)) ∧
  (∀ t th l, threads c !! t = Some th → toEdit_of th = Some l →
             found ≠ Some l).

(** The entry of [i] is no longer the pointer that was read. *)
Definition moved (c : Config) (i : Z) (found : option loc) : Prop :=
  id2Component (store c) !! i ≠ found.

(** Goroutine [t] is still in the call that read [found] for [i], or
    its update function declined and it has returned. *)
Definition pending (c : Config) (t : nat) (i : Z) (found : option loc)
  (toEdit : loc) : Prop :=
  ∃ th, threads c !! t = Some th ∧
        (call_of th = Some (i, found, toEdit) ∨ th = Returned true "").

(** In [sched], goroutine [t] does nothing but run its update function. *)
Definition only_updates (t : nat) (sched : list action) : Prop :=
  ∀ a, a ∈ sched → actor a = t → a = Update t.

(** ** Search *)

(** [type ScoredComponent struct] *)
Record ScoredComponent := mkScored {
  score : Z;
  comp : loc;
}.

(** [func (s ScoreList) Less(i, j int) bool], on the two elements. *)
Definition Less (a b : ScoredComponent) : bool :=
  (* We want to reverse score: highest match first *)
  score a >? score b.

(** The loop of [Search]: [visit] is the order in which [range] yields the
    keys of the map, which Go leaves unspecified. *)
Definition scored_of (s : InMemoryStore) (term : string) (visit : list Z)
  : list ScoredComponent :=
  foldl (λ scoredlist k,
           match id2Component s !! k with
           | Some p =>
               let scored := mkScored (MatchScore (deref (heap s) p) term) p in
               if score scored >? 0 then scoredlist ++ [scored]
               else scoredlist
           | None => scoredlist
           end) [] visit.

(** What one iteration of that loop appends for the key [k], if anything. *)
Definition scored_entry (s : InMemoryStore) (term : string) (k : Z)
  : option ScoredComponent :=
  p ← id2Component s !! k;
  let sc := MatchScore (deref (heap s) p) term in
  if sc >? 0 then Some (mkScored sc p) else None.

(** [func (s *InMemoryStore) Search(search_term string) []*Component].
    [sort_Sort] is [sort.Sort] on a [ScoreList]. *)
Definition Search (sort_Sort : list ScoredComponent → list ScoredComponent)
  (visit : list Z) (s : InMemoryStore) (term : string) : list loc :=
  let scoredlist := scored_of s term visit in
  comp <$> sort_Sort scoredlist.

(** [visit] is an order in which [range s.id2Component] can yield the
    keys: each key of the map once. *)
Definition range_order (s : InMemoryStore) (visit : list Z) : Prop :=
  visit ≡ₚ (map_to_list (id2Component s)).*1.

(** The pointers stored in the map. *)
Definition stored (s : InMemoryStore) : list loc :=
  (map_to_list (id2Component s)).*2.

(** The score [Search] gives to the component at [p]. *)
Definition score_at (s : InMemoryStore) (term : string) (p : loc) : Z :=
  MatchScore (deref (heap s) p) term.

(** The order [sort.Sort] leaves two neighbours in: the later one is not
    [Less] than the earlier one. *)
Definition in_order (a b : ScoredComponent) : Prop := Less b a = false.

(** Descending score, on the pointers of a result. *)
Definition descending (s : InMemoryStore) (term : string) (p q : loc) : Prop :=
  score_at s term q ≤ score_at s term p.

(** [sort.insertionSort], which [sort.Sort] runs on a slice of fewer than
    12 elements: element [i] is swapped towards the front while it is
    [Less] than its left neighbour.  [placed] is the part before [i],
    last element first. *)
Fixpoint sink (x : ScoredComponent) (placed : list ScoredComponent)
  : list ScoredComponent :=
  match placed with
  | [] => [x]
  | y :: placed' => if Less x y then y :: sink x placed' else x :: placed
  end.

Definition insertionSort (data : list ScoredComponent)
  : list ScoredComponent :=
  reverse (foldl (λ placed x, sink x placed) [] data).

(** ** The database backend *)

Module DB.

(** A row of the table [component], with the columns that the statements
    prepared in [NewDBBackend] name; every text column can be null.
    Times are seconds since some epoch. *)
Record Row := mkRow {
  created : option Z;
  updated : option Z;
  col_category : option string;
  col_value : option string;
  col_description : option string;
  col_notes : option string;
  col_quantity : option string;
}.

(** The table, by [id]. *)
Abbreviation Table := (gmap Z Row).

(** [func nullIfEmpty(s string) *string] *)
Definition nullIfEmpty (s : string) : option string :=
  if decide (s = "") then None else Some s.

(** [func emptyIfNull(s *string) string] *)
Definition emptyIfNull (s : option string) : string :=
  match s with None => "" | Some s => s end.

(** [func (d *DBBackend) FindById(id int) *Component] *)
Definition FindById (d : Table) (i : Z) : option Component :=
  match d !! i with
  | None => None
  | Some rec =>
      Some {| id := i;
              category := emptyIfNull (col_category rec);
              value := emptyIfNull (col_value rec);
              description := emptyIfNull (col_description rec);
              notes := emptyIfNull (col_notes rec);
              quantity := emptyIfNull (col_quantity rec) |}
  end.

(** [d.insertRecord.Exec(id, now, ...)] *)
Definition insertRecord (d : Table) (i now : Z) (rec : Component) : Table :=
  <[i := mkRow (Some now) None
           (nullIfEmpty (category rec)) (nullIfEmpty (value rec))
           (nullIfEmpty (description rec)) (nullIfEmpty (notes rec))
           (nullIfEmpty (quantity rec))]> d.

(** [d.updateRecord.Exec(id, now, ...)] *)
Definition updateRecord (d : Table) (i now : Z) (rec : Component) : Table :=
  alter (λ r, mkRow (created r) (Some now)
                (nullIfEmpty (category rec)) (nullIfEmpty (value rec))
                (nullIfEmpty (description rec)) (nullIfEmpty (notes rec))
                (nullIfEmpty (quantity rec))) i d.

(** [func (d *DBBackend) EditRecord(id int, update ModifyFun)
    (bool, string)].  [now] is what [time.Now()] returns and [err] the
    error of [Exec], if the statement fails. *)
Definition EditRecord (d : Table) (i : Z) (update : ModifyFun)
  (now : Z) (err : option string) : Table * (bool * string) :=
  let found := FindById d i in
  let needsInsert := match found with None => true | Some _ => false end in
  let before := match found with None => empty_Component i | Some r => r end in
  let '(rec, commit) := update before in
  if commit then
    if decide (id rec ≠ i) then (d, (false, "ID was modified"))
    else if decide (rec = before) then (d, (true, "No change"))
    else match err with
         | Some e => (d, (false, e))
         | None =>
             (if needsInsert then insertRecord d i now rec
              else updateRecord d i now rec, (true, ""))
         end
  else (d, (true, "")).

(** [func (d *DBBackend) Search(search_term string) []*Component] *)
Definition Search (d : Table) (search_term : string) : list Component :=
  []. (* not implemented yet. *)

End DB.

(** ** Equivalence sets *)

Module EquivSet.

(** [type Component struct] of the version of the program that has
    equivalence sets. *)
Record Component := mkComponent {
  Id : Z;
  Equiv_set : Z;
  Value : string;
  Category : string;
  Description : string;
  Quantity : string;
  Notes : string;
  Datasheet_url : string;
  Drawersize : Z;
  Footprint : string;
}.

Definition set_Equiv_set (e : Z) (c : Component) : Component :=
  mkComponent (Id c) e (Value c) (Category c) (Description c) (Quantity c)
    (Notes c) (Datasheet_url c) (Drawersize c) (Footprint c).

(** Modelled from the spec: the source declares [JoinSet] in the
    interface [StuffStore] and has no implementation of it.  "sets the
    equiv_set field of the record id to the given value".  For an id
    without a record there is no field to set, and no record is made: "a
    record is created implicitly on the first successful edit", and in no
    other way. *)
Definition JoinSet (s : gmap Z Component) (i equiv_set : Z)
  : gmap Z Component :=
  alter (set_Equiv_set equiv_set) i s.

(** Modelled from the spec: the source declares [LeaveSet] in the
    interface [StuffStore] and has no implementation of it.  "resets
    equiv_set of id back to id itself"; as for [JoinSet], nothing happens
    for an id without a record. *)
Definition LeaveSet (s : gmap Z Component) (i : Z) : gmap Z Component :=
  alter (set_Equiv_set i) i s.

(** The [equiv_set] of the record [i], if there is one. *)
Definition equiv_set_of (s : gmap Z Component) (i : Z) : option Z :=
  Equiv_set <$> s !! i.

(** A bin [i] in the set [e]. *)
Definition bin (i e : Z) : Component :=
  mkComponent i e "10k" "Resistor" "" "" "" "" 0 "".

(** Bins 1 and 2 are both in the set 2; bin 3 is on its own. *)
Definition shelf : gmap Z Component :=
  <[1 := bin 1 2]> (<[2 := bin 2 2]> (<[3 := bin 3 3]> ∅)).

End EquivSet.

(** ** Example data *)

(** The update function of [entryFormHandler]: it sets category, value,
    description and notes from the form and returns true. *)
Definition form_update (category value description notes : string) : ModifyFun :=
  λ comp, (mkComponent (id comp) value category description
             (quantity comp) notes, true).

(** An update function that changes nothing and asks to commit. *)
Definition keep : ModifyFun := λ comp, (comp, true).

(** An update function that writes [j] to the id field. *)
Definition renumber (j : Z) : ModifyFun := λ comp, (set_id j comp, true).

(** Component 1 is a resistor of value 10k. *)
Definition store_one : InMemoryStore :=
  (EditRecord NewInMemoryStore 1 (form_update "Resistor" "10k" "" "")).1.

(** Component 2 is a network whose value has 10k further in. *)
Definition store_10k : InMemoryStore :=
  (EditRecord store_one 2 (form_update "R-Network" "R-10k-network" "" "")).1.

(** Components 1 and 2 are two bins of the same part. *)
Definition store_twins : InMemoryStore :=
  (EditRecord store_one 2 (form_update "Resistor" "10k" "" "")).1.

(** The table after the same first edit. *)
Definition table_10k : gmap Z DB.Row :=
  (DB.EditRecord ∅ 1 (form_update "Resistor" "10k" "" "") 0 None).1.

(** No goroutine has called yet. *)
Definition idle : Config := mkConfig NewInMemoryStore ∅.

(** The configuration after [sched], from [idle]. *)
Definition after (sched : list action) : Config :=
  default idle (run idle sched).

(** ** Further notions for the stores *)

(** Every pointer in the map points to a record that carries the id it is
    stored under. *)
Definition keyed (s : InMemoryStore) : Prop :=
  ∀ i p, id2Component s !! i = Some p →
         ∃ c, heap s !! p = Some c ∧ id c = i.

(** The id whose entry the action [a] is about to compare and store, when
    [a] is the second critical section of a call. *)
Definition commit_id (c : Config) (a : action) : option Z :=
  match a with
  | Commit t =>
      match threads c !! t with
      | Some (AtCommit i _ _) => Some i
      | _ => None
      end
  | _ => None
  end.

(** No action of [sched], run from [c], is a commit on the id [i]. *)
Fixpoint leaves_alone (i : Z) (c : Config) (sched : list action) : bool :=
  match sched with
  | [] => true
  | a :: sched' =>
      match step c a with
      | Some c' =>
          bool_decide (commit_id c a ≠ Some i) && leaves_alone i c' sched'
      | None => true
      end
  end.

(** No action of [sched] is a call of [EditRecord] on the id [i]. *)
Definition never_called (i : Z) (sched : list action) : Prop :=
  ∀ t update, Call t i update ∉ sched.

(** The record that a call of [EditRecord] on [i] copies into [toEdit]
    when it starts in the store [s]. *)
Definition read_of (s : InMemoryStore) (i : Z) : Component :=
  match id2Component s !! i with
  | Some p => deref (heap s) p
  | None => empty_Component i
  end.

(** Goroutine [t] is in the call [EditRecord(i, update)] that read
    [found] and copied [read]: before its update function has run its
    variable holds [read], after it returned true the variable holds what
    the function made of [read]; or the function declined and the call
    has returned. *)
Definition in_call (c : Config) (t : nat) (i : Z) (update : ModifyFun)
  (found : option loc) (toEdit : loc) (read : Component) : Prop :=
  (threads c !! t = Some (AtUpdate i update found toEdit) ∧
   heap (store c) !! toEdit = Some read) ∨
  (threads c !! t = Some (AtCommit i found toEdit) ∧
   heap (store c) !! toEdit = Some (update read).1) ∨
  threads c !! t = Some (Returned true "").

(** [EditRecord] stores [&toEdit], the variable it handed to [update],
    and [FindById] and [Search] hand out the pointers of the map.  A
    caller that keeps such a pointer can write through it at any later
    time; the interface asks callers not to ("Don't modify the returned
    pointer").  An event is an action of a call of [EditRecord], or such
    a write: [Poke l r] assigns [r] to the variable at [l]. *)
Inductive event :=
  | Act (a : action)
  | Poke (l : loc) (r : Component).

Definition step_ext (c : Config) (e : event) : option Config :=
  match e with
  | Act a => step c a
  | Poke l r =>
      match heap (store c) !! l with
      | Some _ =>
          Some (mkConfig (mkStore (<[l := r]> (heap (store c)))
                            (id2Component (store c))) (threads c))
      | None => None
      end
  end.

Fixpoint run_ext (c : Config) (sched : list event) : option Config :=
  match sched with
  | [] => Some c
  | e :: sched' => c' ← step_ext c e; run_ext c' sched'
  end.

(** The configuration after [sched], from [idle]. *)
Definition after_ext (sched : list event) : Config :=
  default idle (run_ext idle sched).

(** Nobody writes through a kept pointer in [sched]. *)
Definition no_poke (sched : list event) : Prop :=
  ∀ l r, Poke l r ∉ sched.

(** Nobody writes through the pointer [p] in [sched]. *)
Definition no_poke_at (p : loc) (sched : list event) : Prop :=
  ∀ r, Poke p r ∉ sched.

(** [DBBackend.EditRecord] in its two halves, as two goroutines run them:
    the [SELECT] of [FindById], and what follows the call of [update]. *)
Module DBSteps.

(** [rec := d.FindById(id)] with [needsInsert] and the record handed to
    [update]. *)
Definition read (d : gmap Z DB.Row) (i : Z) : bool * Component :=
  match DB.FindById d i with
  | None => (true, empty_Component i)
  | Some r => (false, r)
  end.

(** The body of [if update(rec) { ... }] and the final return, on the
    table as it is when the statement executes. *)
Definition write (d : gmap Z DB.Row) (i : Z) (needsInsert : bool)
  (before rec : Component) (commit : bool) (now : Z) (err : option string)
  : gmap Z DB.Row * (bool * string) :=
  if commit then
    if decide (id rec ≠ i) then (d, (false, "ID was modified"))
    else if decide (rec = before) then (d, (true, "No change"))
    else match err with
         | Some e => (d, (false, e))
         | None =>
             (if needsInsert then DB.insertRecord d i now rec
              else DB.updateRecord d i now rec, (true, ""))
         end
  else (d, (true, "")).

End DBSteps.

(** ** The form handler *)

(** [type StuffStore interface], with the two methods that
    [entryFormHandler] calls.  [FindById] gives the record that the
    caller reads through the pointer. *)
Class StuffStore (S : Type) := {
  store_FindById : S → Z → option Component;
  store_EditRecord : S → Z → ModifyFun → S * (bool * string);
}.

Global Instance InMemoryStore_StuffStore : StuffStore InMemoryStore := {|
  store_FindById := record_of;
  store_EditRecord := EditRecord;
|}.

(** The database backend at a moment when [time.Now()] is [now] and
    [Exec] fails with [err], if it does. *)
Definition DBBackend_StuffStore (now : Z) (err : option string)
  : StuffStore (gmap Z DB.Row) := {|
  store_FindById := DB.FindById;
  store_EditRecord := λ d i update, DB.EditRecord d i update now err;
|}.

Module Form.

(** What [r.FormValue] returns for the seven fields the handler reads;
    the empty string for a field that is not in the request. *)
Record Request := mkRequest {
  form_id : string;
  form_send : string;
  form_orig_id : string;
  form_category : string;
  form_value : string;
  form_description : string;
  form_notes : string;
}.

(** [type FormPage struct] *)
Record FormPage := mkFormPage {
  Msg : string;
  Id : string;
  PrevId : string;
  NextId : string;
  Category : string;
  Value : string;
  Description : string;
  Notes : string;
  Quantity : string;
}.

(** Go's [int] where it has 64 bits: sums wrap around. *)
Definition wrap (x : Z) : Z := (x + 2 ^ 63) mod 2 ^ 64 - 2 ^ 63.

Section Handler.
Context {Store : Type} `{!StuffStore Store}.

(** [strconv.Atoi] with its error dropped, as in [id, _ := ...]. *)
Variable Atoi : string → Z.

(** [strconv.Itoa]; [fmt.Sprintf("%d", id)] is the same string. *)
Variable Itoa : Z → string.

(** [requestStore] of [entryFormHandler]. *)
Definition requestStore (r : Request) : bool :=
  bool_decide (form_send r ≠ "") &&
  bool_decide (form_orig_id r = form_id r).

(** [func entryFormHandler(store StuffStore, w http.ResponseWriter,
    r *http.Request)], up to the page it hands to [renderTemplate]. *)
Definition entryFormHandler (store : Store) (r : Request)
  : Store * FormPage :=
  let i := Atoi (form_id r) in
  let '(store, msg) :=
    if requestStore r then
      let '(store', (success, err)) :=
        store_EditRecord store i
          (form_update (form_category r) (form_value r)
             (form_description r) (form_notes r)) in
      (store',
       if success then "Stored item " +:+ Itoa i
       else "ERROR STORING STUFF DAMNIT. " +:+ err +:+ "ID=" +:+ Itoa i)
    else (store, "Edit item " +:+ Itoa i) in
  let i := if requestStore r
           then wrap (i + 1) (* be helpful and suggest next *)
           else i in
  let page_Id := Itoa i in
  let page_PrevId := if 0 <? i then Itoa (wrap (i - 1)) else "" in
  let page_NextId := Itoa (wrap (i + 1)) in
  match store_FindById store i with
  | Some currentItem =>
      (store, mkFormPage msg page_Id page_PrevId page_NextId
                (category currentItem) (value currentItem)
                (description currentItem) (notes currentItem) "")
  | None =>
      (store, mkFormPage ("Edit new item " +:+ Itoa i)
                page_Id page_PrevId page_NextId "" "" "" "" "")
  end.

(** The id whose record the page shows. *)
Definition shown_id (r : Request) : Z :=
  if requestStore r then wrap (Atoi (form_id r) + 1) else Atoi (form_id r).

End Handler.

(** Decimal numerals, for the examples only: what [strconv.Itoa] prints,
    and a reader of plain numerals.  The reader is not [strconv.Atoi]: it
    gives 0 for a numeral with a leading plus sign, and the number itself
    where [Atoi] stops at the largest or smallest [int].  No theorem is
    about it; the examples read the numeral 1. *)
Definition decimal (z : Z) : string :=
  DecimalString.NilZero.string_of_int (Z.to_int z).

Definition parse (s : string) : Z :=
  match DecimalString.NilZero.int_of_string s with
  | Some d => Z.of_int d
  | None => 0
  end.

(** The form sent for id 1 with the Store button. *)
Definition request_1 : Request :=
  mkRequest "1" "Store" "1" "Resistor" "12k" "metal film" "drawer 3".

End Form.

(** ** Facts about [Index] *)

Lemma prefix_append (p s : string) :
  String.prefix p s = true ↔ ∃ t, s = p +:+ t.
Proof.
  revert s; induction p as [|a p IH]; intros [|b s]; simpl.
  - split; eauto.
  - split; eauto.
  - split; [done | intros [t Ht]; discriminate].
  - destruct (Ascii.ascii_dec a b) as [->|Hne].
    + rewrite IH. split; intros [t Ht]; exists t.
      * by rewrite Ht.
      * by injection Ht.
    + split; [done | intros [t Ht]; injection Ht; congruence].
Qed.

Lemma Index_nil (t : string) :
  Index "" t = if String.prefix t "" then 0 else -1.
Proof. done. Qed.

Lemma Index_cons (a : ascii) (s t : string) :
  Index (String a s) t =
  if String.prefix t (String a s) then 0
  else if Index s t =? -1 then -1 else Index s t + 1.
Proof. done. Qed.

Lemma Index_range (s t : string) : Index s t = -1 ∨ 0 ≤ Index s t.
Proof.
  induction s as [|a s IH].
  - rewrite Index_nil. destruct (String.prefix t ""); lia.
  - rewrite Index_cons. destruct (String.prefix t (String a s)); [lia|].
    destruct (Z.eqb_spec (Index s t) (-1)); lia.
Qed.

Lemma Index_zero (s t : string) :
  Index s t = 0 ↔ String.prefix t s = true.
Proof.
  destruct s as [|a s].
  - rewrite Index_nil. destruct (String.prefix t ""); [done | split; [lia | done]].
  - rewrite Index_cons. destruct (String.prefix t (String a s)) eqn:E; [done|].
    pose proof (Index_range s t).
    destruct (Z.eqb_spec (Index s t) (-1)); split; (lia || done).
Qed.

Lemma occurs_at_0 (t s : string) :
  occurs_at 0 t s ↔ String.prefix t s = true.
Proof.
  rewrite prefix_append. split.
  - intros (pre & post & -> & Hl). destruct pre; [|discriminate]. eauto.
  - intros [post ->]. exists "", post. done.
Qed.

Lemma occurs_at_S (n : nat) (t : string) (a : ascii) (s : string) :
  occurs_at (S n) t (String a s) ↔ occurs_at n t s.
Proof.
  split.
  - intros (pre & post & E & Hl). destruct pre as [|b pre]; [discriminate|].
    simpl in *. exists pre, post. split; [by injection E | lia].
  - intros (pre & post & -> & Hl). exists (String a pre), post.
    simpl. split; [done | lia].
Qed.

Lemma occurs_at_nil (n : nat) (t : string) :
  occurs_at n t "" → n = 0%nat.
Proof.
  intros (pre & post & E & Hl). destruct pre; [done | discriminate].
Qed.

(** What [Index] returns, in both of its cases: -1 only when there is no
    occurrence, and otherwise the offset of the first occurrence. *)
Lemma Index_sound (s t : string) :
  (Index s t = -1 → ∀ n, ¬ occurs_at n t s) ∧
  (∀ n : nat, Index s t = Z.of_nat n →
     occurs_at n t s ∧ ∀ m, occurs_at m t s → (n ≤ m)%nat).
Proof.
  induction s as [|a s [IHnone IHsome]].
  - rewrite Index_nil. destruct (String.prefix t "") eqn:E.
    + split; [lia|]. intros n Hn. assert (n = 0%nat) as -> by lia.
      split; [by apply occurs_at_0 | intros; lia].
    + split; [|lia]. intros _ n Ho.
      pose proof (occurs_at_nil _ _ Ho) as ->.
      apply occurs_at_0 in Ho. congruence.
  - rewrite Index_cons. destruct (String.prefix t (String a s)) eqn:E.
    + split; [lia|]. intros n Hn. assert (n = 0%nat) as -> by lia.
      split; [by apply occurs_at_0 | intros; lia].
    + destruct (Z.eqb_spec (Index s t) (-1)) as [Hm|Hm].
      * split; [|lia]. intros _ [|n] Ho.
        -- apply occurs_at_0 in Ho. congruence.
        -- apply occurs_at_S in Ho. by apply (IHnone Hm n).
      * split; [pose proof (Index_range s t); lia|].
        intros [|n] Hn; [pose proof (Index_range s t); lia|].
        destruct (IHsome n) as [Ho Hmin]; [lia|].
        split; [by apply occurs_at_S|].
        intros [|m] Hom.
        -- apply occurs_at_0 in Hom. congruence.
        -- apply occurs_at_S, Hmin in Hom. lia.
Qed.

Lemma Index_none (s t : string) :
  Index s t = -1 ↔ ¬ substring_of t s.
Proof.
  split.
  - intros H [n Hn]. by apply (proj1 (Index_sound s t) H n).
  - intros H. destruct (Index_range s t) as [|Hr]; [done|].
    exfalso. apply H. exists (Z.to_nat (Index s t)).
    apply (proj2 (Index_sound s t)). lia.
Qed.

Lemma Index_first (s t : string) (n : nat) :
  Index s t = Z.of_nat n ↔
  occurs_at n t s ∧ ∀ m, occurs_at m t s → (n ≤ m)%nat.
Proof.
  split; [apply Index_sound|].
  intros [Ho Hmin]. destruct (Index_range s t) as [Hr|Hr].
  - exfalso. by apply (proj1 (Index_sound s t) Hr n).
  - destruct (proj2 (Index_sound s t) (Z.to_nat (Index s t))) as [Ho' Hmin'];
      [lia|].
    apply Hmin in Ho'. apply Hmin' in Ho. lia.
Qed.

(** ** Facts about the score *)

Lemma StringScore_cases (needle haystack : string) :
  (¬ substring_of needle haystack ∧ StringScore needle haystack = 0) ∨
  (occurs_at 0 needle haystack ∧ StringScore needle haystack = 2) ∨
  (substring_of needle haystack ∧ ¬ occurs_at 0 needle haystack ∧
   StringScore needle haystack = 1).
Proof.
  unfold StringScore.
  destruct (Z.eqb_spec (Index haystack needle) (-1)) as [Hm|Hm].
  { left. by rewrite <- Index_none. }
  destruct (Z.eqb_spec (Index haystack needle) 0) as [Hz|Hz].
  { right; left. by rewrite occurs_at_0, <- Index_zero. }
  right; right. split_and!; [| |done].
  - destruct (Index_range haystack needle) as [|Hr]; [done|].
    exists (Z.to_nat (Index haystack needle)).
    apply (proj2 (Index_sound haystack needle)). lia.
  - by rewrite occurs_at_0, <- Index_zero.
Qed.

Lemma StringScore_absent (needle haystack : string) :
  ¬ substring_of needle haystack → StringScore needle haystack = 0.
Proof.
  intros H. destruct (StringScore_cases needle haystack)
    as [[_ ?]|[[Ho _]|[Hs _]]]; [done| |done].
  destruct H. by exists 0%nat.
Qed.

Lemma StringScore_prefix (needle haystack : string) :
  occurs_at 0 needle haystack → StringScore needle haystack = 2.
Proof.
  intros H. destruct (StringScore_cases needle haystack)
    as [[Hn _]|[[_ ?]|(_ & Hn & _)]]; [|done|done].
  destruct Hn. by exists 0%nat.
Qed.

Lemma StringScore_interior (needle haystack : string) :
  substring_of needle haystack → ¬ occurs_at 0 needle haystack →
  StringScore needle haystack = 1.
Proof.
  intros Hs Hn. destruct (StringScore_cases needle haystack)
    as [[? _]|[[? _]|(_ & _ & ?)]]; done.
Qed.

Lemma StringScore_no_prefix_le (needle haystack : string) :
  ¬ occurs_at 0 needle haystack → 0 ≤ StringScore needle haystack ≤ 1.
Proof.
  intros Hn. destruct (StringScore_cases needle haystack)
    as [[_ ->]|[[? _]|(_ & _ & ->)]]; done || lia.
Qed.

Lemma StringScore_range (needle haystack : string) :
  0 ≤ StringScore needle haystack ≤ 2.
Proof.
  destruct (StringScore_cases needle haystack)
    as [[_ ->]|[[_ ->]|(_ & _ & ->)]]; lia.
Qed.

Lemma StringScore_empty (haystack : string) : StringScore "" haystack = 2.
Proof. apply StringScore_prefix. by exists "", haystack. Qed.

Lemma occurs_at_self (term : string) : occurs_at 0 term term.
Proof.
  exists "", "". split; [|done]. change (term = term +:+ "").
  induction term as [|a t IH]; [done|].
  change (String a t = String a (t +:+ "")). by rewrite <- IH.
Qed.

(** C4: the score of a component is 1·match(category) + 3·match(value) +
    2·match(description), where match is [StringScore]: 0 when the term is
    not a substring of the field, and strictly higher (2) when the term
    occurs at position 0 than when it only occurs further in (1). *)
Theorem MatchScore_weighted_match (term : string) (c : Component) :
  MatchScore c term =
    1 * StringScore term (category c) +
    3 * StringScore term (value c) +
    2 * StringScore term (description c) ∧
  (∀ field, ¬ substring_of term field → StringScore term field = 0) ∧
  (∀ prefixed interior,
     occurs_at 0 term prefixed →
     substring_of term interior → ¬ occurs_at 0 term interior →
     StringScore term prefixed > StringScore term interior ∧
     StringScore term interior > 0).
Proof.
  split_and!.
  - done.
  - apply StringScore_absent.
  - intros f1 f2 H1 H2 H3.
    rewrite (StringScore_prefix _ _ H1), (StringScore_interior _ _ H2 H3). lia.
Qed.

Lemma MatchScore_weighted_match_witness :
  MatchScore (mkComponent 1 "10k" "Resistor" "10k 1%" "" "") "10k" = 10 ∧
  StringScore "10k" "Resistor" = 0 ∧
  StringScore "10k" "10k" > StringScore "10k" "R-10k-network" ∧
  StringScore "10k" "R-10k-network" > 0.
Proof.
  destruct (MatchScore_weighted_match "10k"
              (mkComponent 1 "10k" "Resistor" "10k 1%" "" ""))
    as (Hsum & Habsent & Horder).
  split; [rewrite Hsum; reflexivity|].
  split; [apply Habsent, Index_none; reflexivity|].
  apply Horder.
  - by exists "", "".
  - by exists 2%nat, "R-", "-network".
  - rewrite occurs_at_0. by vm_compute.
Defined.

(** ** Facts about the loop of [Search] *)

Lemma scored_of_omap (s : InMemoryStore) (term : string) (visit : list Z) :
  scored_of s term visit = omap (scored_entry s term) visit.
Proof.
  unfold scored_of.
  assert (∀ acc, foldl (λ scoredlist k,
           match id2Component s !! k with
           | Some p =>
               let scored := mkScored (MatchScore (deref (heap s) p) term) p in
               if score scored >? 0 then scoredlist ++ [scored]
               else scoredlist
           | None => scoredlist
           end) acc visit = acc ++ omap (scored_entry s term) visit) as H.
  { induction visit as [|k visit IH]; intros acc; simpl.
    - by rewrite app_nil_r.
    - rewrite IH. unfold scored_entry at 2.
      destruct (id2Component s !! k) as [p|]; simpl; [|done].
      destruct (MatchScore (deref (heap s) p) term >? 0); [|done].
      by rewrite <- app_assoc. }
  apply H.
Qed.

Lemma scored_of_score (s : InMemoryStore) (term : string) (visit : list Z) :
  Forall (λ x, score x = score_at s term (comp x)) (scored_of s term visit).
Proof.
  rewrite scored_of_omap. induction visit as [|k visit IH]; csimpl; [done|].
  unfold scored_entry at 1.
  destruct (id2Component s !! k) as [p|]; csimpl; [|done].
  destruct (MatchScore (deref (heap s) p) term >? 0); [|done].
  by constructor.
Qed.

Lemma scored_of_comp (s : InMemoryStore) (term : string) (visit : list Z) :
  comp <$> scored_of s term visit =
  filter (λ p, 0 < score_at s term p) (omap (λ k, id2Component s !! k) visit).
Proof.
  rewrite scored_of_omap. induction visit as [|k visit IH]; csimpl; [done|].
  unfold scored_entry at 1.
  destruct (id2Component s !! k) as [p|]; csimpl; [|done].
  rewrite filter_cons. unfold score_at at 1.
  destruct (Z.gtb_spec (MatchScore (deref (heap s) p) term) 0);
    case_decide; try lia; csimpl; by rewrite IH.
Qed.

Lemma omap_lookup_keys (m : gmap Z loc) (kvs : list (Z * loc)) :
  (∀ k v, (k, v) ∈ kvs → m !! k = Some v) →
  omap (λ k, m !! k) kvs.*1 = kvs.*2.
Proof.
  induction kvs as [|[k v] kvs IH]; intros H; csimpl; [done|].
  rewrite (H k v) by left. csimpl. rewrite IH; [done|].
  intros k' v' Hin. apply H. by right.
Qed.

Lemma range_order_stored (s : InMemoryStore) (visit : list Z) :
  range_order s visit →
  omap (λ k, id2Component s !! k) visit ≡ₚ stored s.
Proof.
  unfold range_order, stored. intros ->.
  rewrite omap_lookup_keys; [done|].
  intros k v. apply elem_of_map_to_list.
Qed.

Global Instance in_order_trans : Transitive in_order.
Proof.
  intros a b c. unfold in_order, Less.
  intros H1 H2. destruct (Z.gtb_spec (score c) (score a)); [|done].
  destruct (Z.gtb_spec (score b) (score a)); [done|].
  destruct (Z.gtb_spec (score c) (score b)); [done|]. lia.
Qed.

Lemma StronglySorted_comp (s : InMemoryStore) (term : string)
  (l : list ScoredComponent) :
  Forall (λ x, score x = score_at s term (comp x)) l →
  StronglySorted in_order l →
  StronglySorted (descending s term) (comp <$> l).
Proof.
  intros Hsc Hs. induction Hs as [|x l Hs IH Hx]; csimpl; constructor.
  - apply IH. by inv Hsc.
  - inv Hsc. rewrite Forall_fmap.
    rewrite Forall_forall in *. intros y Hy. simpl.
    unfold descending. specialize (Hx y Hy). unfold in_order, Less in Hx.
    rewrite <- H1, <- (H2 y Hy).
    destruct (Z.gtb_spec (score y) (score x)); [done | lia].
Qed.

(** ** [sort.insertionSort] meets the contract of [sort.Sort] *)

Lemma sink_perm (x : ScoredComponent) (placed : list ScoredComponent) :
  sink x placed ≡ₚ x :: placed.
Proof.
  induction placed as [|y placed IH]; simpl; [done|].
  destruct (Less x y); [|done]. rewrite IH. apply Permutation_swap.
Qed.

Lemma sink_sorted (x : ScoredComponent) (placed : list ScoredComponent) :
  Sorted (flip in_order) placed → Sorted (flip in_order) (sink x placed).
Proof.
  induction 1 as [|y placed Hs IH Hhd]; simpl.
  - repeat constructor.
  - destruct (Less x y) eqn:E.
    + constructor; [done|].
      destruct Hhd as [|z placed Hz]; simpl.
      * constructor. unfold flip, in_order, Less in *.
        destruct (Z.gtb_spec (score x) (score y)); [|done].
        destruct (Z.gtb_spec (score y) (score x)); [lia | done].
      * destruct (Less x z); constructor; [done|].
        unfold flip, in_order, Less in *.
        destruct (Z.gtb_spec (score x) (score y)); [|done].
        destruct (Z.gtb_spec (score y) (score x)); [lia | done].
    + constructor; [by constructor|]. constructor. apply E.
Qed.

Lemma insertionSort_perm (data : list ScoredComponent) :
  insertionSort data ≡ₚ data.
Proof.
  unfold insertionSort. rewrite reverse_Permutation.
  assert (∀ acc, foldl (λ placed x, sink x placed) acc data ≡ₚ acc ++ data)
    as H; [|apply H].
  induction data as [|x data IH]; intros acc; simpl.
  - by rewrite app_nil_r.
  - rewrite IH, sink_perm. simpl. apply Permutation_middle.
Qed.

Lemma insertionSort_sorted (data : list ScoredComponent) :
  Sorted in_order (insertionSort data).
Proof.
  unfold insertionSort.
  assert (∀ acc, Sorted (flip in_order) acc →
            Sorted (flip in_order) (foldl (λ placed x, sink x placed) acc data))
    as H.
  { induction data as [|x data IH]; intros acc Hacc; simpl; [done|].
    apply IH. by apply sink_sorted. }
  apply (Sorted_reverse (flip in_order)). apply H. constructor.
Qed.

(** ** [InMemoryStore.Search]

    [sort.Sort] is library code.  What is assumed of it is its contract:
    it permutes the slice, and afterwards no element is [Less] than an
    earlier one.  It is not stable, and [range] over a map yields the keys
    in an order that Go does not fix. *)
Section Search.
Variable sort_Sort : list ScoredComponent → list ScoredComponent.
Hypothesis sort_Sort_perm : ∀ data, sort_Sort data ≡ₚ data.
Hypothesis sort_Sort_sorted : ∀ data, Sorted in_order (sort_Sort data).

Lemma Search_filter (visit : list Z) (s : InMemoryStore) (term : string) :
  Search sort_Sort visit s term ≡ₚ
  filter (λ p, 0 < score_at s term p)
    (omap (λ k, id2Component s !! k) visit).
Proof.
  unfold Search. by rewrite sort_Sort_perm, scored_of_comp.
Qed.

Lemma Search_positive (visit : list Z) (s : InMemoryStore) (term : string)
  (p : loc) :
  p ∈ Search sort_Sort visit s term → 0 < score_at s term p.
Proof.
  rewrite Search_filter. by intros [? _]%list_elem_of_filter.
Qed.

Lemma Search_stored (visit : list Z) (s : InMemoryStore) (term : string) :
  range_order s visit →
  Search sort_Sort visit s term ≡ₚ
  filter (λ p, 0 < score_at s term p) (stored s).
Proof.
  intros H. by rewrite Search_filter, (range_order_stored _ _ H).
Qed.

Lemma Search_descending (visit : list Z) (s : InMemoryStore) (term : string) :
  StronglySorted (descending s term) (Search sort_Sort visit s term).
Proof.
  unfold Search. apply StronglySorted_comp.
  - rewrite sort_Sort_perm. apply scored_of_score.
  - apply Sorted_StronglySorted; [apply _ | apply sort_Sort_sorted].
Qed.

(** C5: [Search] returns exactly the stored components whose score is
    strictly greater than 0, in descending order of score; a component
    whose score is <= 0 is never in the result. *)
Theorem Search_positive_descending (visit : list Z) (s : InMemoryStore)
  (term : string) :
  range_order s visit →
  Search sort_Sort visit s term ≡ₚ
    filter (λ p, 0 < score_at s term p) (stored s) ∧
  StronglySorted (descending s term) (Search sort_Sort visit s term) ∧
  (∀ p, score_at s term p ≤ 0 → p ∉ Search sort_Sort visit s term).
Proof.
  intros H. split_and!.
  - by apply Search_stored.
  - apply Search_descending.
  - intros p Hp Hin%Search_positive. lia.
Qed.

(** C6, as amended: for a fixed store and term, two calls of [Search]
    return the same components with the same sequence of scores; only
    the order among components of equal score may differ. *)
Theorem Search_determined_up_to_ties (visit1 visit2 : list Z)
  (s : InMemoryStore) (term : string) :
  range_order s visit1 → range_order s visit2 →
  Search sort_Sort visit1 s term ≡ₚ Search sort_Sort visit2 s term ∧
  score_at s term <$> Search sort_Sort visit1 s term =
    score_at s term <$> Search sort_Sort visit2 s term.
Proof.
  intros H1 H2.
  assert (Search sort_Sort visit1 s term ≡ₚ Search sort_Sort visit2 s term)
    as Hp by (by rewrite !Search_stored).
  split; [done|].
  assert (AntiSymm (=) (flip Z.le)) by (intros x y; unfold flip; lia).
  apply (StronglySorted_unique (flip Z.le)).
  - apply (StronglySorted_fmap _ (descending s term)); [done|].
    apply Search_descending.
  - apply (StronglySorted_fmap _ (descending s term)); [done|].
    apply Search_descending.
  - by rewrite Hp.
Qed.

(** C8: a component whose value is the term itself scores at least as
    high as any component in which the term is at the start of none of
    the three fields (so occurs, if at all, only further in); and a
    component in which the term occurs in none of category, value and
    description is not in the result of [Search]. *)
Theorem exact_value_outranks_interior (visit : list Z) (s : InMemoryStore)
  (term : string) :
  (∀ c1 c2,
     value c1 = term →
     ¬ occurs_at 0 term (category c2) →
     ¬ occurs_at 0 term (value c2) →
     ¬ occurs_at 0 term (description c2) →
     MatchScore c2 term ≤ MatchScore c1 term) ∧
  (∀ p,
     ¬ substring_of term (category (deref (heap s) p)) →
     ¬ substring_of term (value (deref (heap s) p)) →
     ¬ substring_of term (description (deref (heap s) p)) →
     p ∉ Search sort_Sort visit s term).
Proof.
  split.
  - intros c1 c2 Hv Hc2 Hv2 Hd2. unfold MatchScore.
    rewrite (StringScore_prefix term (value c1))
      by (rewrite Hv; apply occurs_at_self).
    pose proof (StringScore_range term (category c1)).
    pose proof (StringScore_range term (description c1)).
    pose proof (StringScore_no_prefix_le _ _ Hc2).
    pose proof (StringScore_no_prefix_le _ _ Hv2).
    pose proof (StringScore_no_prefix_le _ _ Hd2).
    lia.
  - intros p Hc Hv Hd Hin%Search_positive.
    unfold score_at, MatchScore in Hin.
    rewrite !StringScore_absent in Hin by done. lia.
Qed.

(** C10: for the empty term every field of every component is a prefix
    match (2), the score is 12, and [Search] returns every stored
    component. *)
Theorem Search_empty_term (visit : list Z) (s : InMemoryStore) :
  range_order s visit →
  (∀ c : Component,
     StringScore "" (category c) = 2 ∧ StringScore "" (value c) = 2 ∧
     StringScore "" (description c) = 2 ∧ MatchScore c "" = 12) ∧
  Search sort_Sort visit s "" ≡ₚ stored s.
Proof.
  intros H.
  assert (∀ c : Component, MatchScore c "" = 12) as H12.
  { intros c. unfold MatchScore. by rewrite !StringScore_empty. }
  split.
  - intros c. by rewrite !StringScore_empty, H12.
  - rewrite (Search_stored _ _ _ H).
    induction (stored s) as [|p l IH]; [done|].
    rewrite filter_cons.
    case_decide as Hp; [by rewrite IH|].
    unfold score_at in Hp. rewrite H12 in Hp. lia.
Qed.
End Search.

(** ** [Search] on the example stores *)

(** Whether a list of keys is an order of a given map is decidable, and
    on the example stores it is settled by evaluation. *)
Ltac range_by_compute :=
  unfold range_order; apply (bool_decide_unpack _); by vm_compute.

Lemma range_order_10k_12 : range_order store_10k [1; 2].
Proof. range_by_compute. Qed.

Lemma range_order_twins_12 : range_order store_twins [1; 2].
Proof. range_by_compute. Qed.

Lemma range_order_twins_21 : range_order store_twins [2; 1].
Proof. range_by_compute. Qed.

Lemma Search_positive_descending_witness :
  range_order store_10k [1; 2] ∧
  Search insertionSort [1; 2] store_10k "R-" ≡ₚ
    filter (λ p, 0 < score_at store_10k "R-" p) (stored store_10k) ∧
  StronglySorted (descending store_10k "R-")
    (Search insertionSort [1; 2] store_10k "R-") ∧
  (∀ p, score_at store_10k "R-" p ≤ 0 →
        p ∉ Search insertionSort [1; 2] store_10k "R-").
Proof.
  split; [range_by_compute|].
  apply (Search_positive_descending insertionSort insertionSort_perm
           insertionSort_sorted [1; 2] store_10k "R-").
  range_by_compute.
Defined.

Lemma Search_determined_up_to_ties_witness :
  Search insertionSort [1; 2] store_twins "10k" ≡ₚ
    Search insertionSort [2; 1] store_twins "10k" ∧
  score_at store_twins "10k" <$> Search insertionSort [1; 2] store_twins "10k" =
    score_at store_twins "10k" <$> Search insertionSort [2; 1] store_twins "10k".
Proof.
  apply (Search_determined_up_to_ties insertionSort insertionSort_perm
           insertionSort_sorted [1; 2] [2; 1] store_twins "10k");
    range_by_compute.
Defined.

(** C6, as stated, fails: the two bins of [store_twins] have the same
    score, [range] may yield their keys in either order, and the two
    results list them in different orders.  Nothing in [Less] breaks the
    tie. *)
Lemma Search_order_depends_on_range :
  range_order store_twins [1; 2] ∧ range_order store_twins [2; 1] ∧
  Search insertionSort [1; 2] store_twins "10k" = [0%nat; 1%nat] ∧
  Search insertionSort [2; 1] store_twins "10k" = [1%nat; 0%nat] ∧
  Search insertionSort [1; 2] store_twins "10k" ≠
    Search insertionSort [2; 1] store_twins "10k".
Proof.
  split_and!.
  - apply range_order_twins_12.
  - apply range_order_twins_21.
  - by vm_compute.
  - by vm_compute.
  - by vm_compute.
Qed.

Lemma exact_value_outranks_interior_witness :
  MatchScore (mkComponent 2 "R-10k-network" "SMD 10k" "has 10k inside" "" "")
    "10k" ≤ MatchScore (mkComponent 1 "10k" "Resistor" "" "" "") "10k" ∧
  0%nat ∉ Search insertionSort [1; 2] store_10k "R-N".
Proof.
  pose proof (exact_value_outranks_interior insertionSort insertionSort_perm
                [1; 2] store_10k "10k") as [H _].
  pose proof (exact_value_outranks_interior insertionSort insertionSort_perm
                [1; 2] store_10k "R-N") as [_ H'].
  split.
  - apply H; [done| | |]; rewrite occurs_at_0; by vm_compute.
  - assert (∀ f, Index f "R-N" = -1 → ¬ substring_of "R-N" f) as Hn
      by (intros f; apply Index_none).
    apply H'; apply Hn; by vm_compute.
Defined.

Lemma Search_empty_term_witness :
  (∀ c : Component,
     StringScore "" (category c) = 2 ∧ StringScore "" (value c) = 2 ∧
     StringScore "" (description c) = 2 ∧ MatchScore c "" = 12) ∧
  Search insertionSort [2; 1] store_10k "" ≡ₚ stored store_10k.
Proof.
  apply (Search_empty_term insertionSort insertionSort_perm [2; 1] store_10k).
  range_by_compute.
Defined.

(** ** [DBBackend.Search] *)

Lemma DB_Search_nil (d : gmap Z DB.Row) (term : string) : DB.Search d term = [].
Proof. done. Qed.

(** C7: the two backends hold the same record, the component 1 of value
    10k.  [InMemoryStore.Search] finds it for the term 10k;
    [DBBackend.Search] returns nothing. *)
Theorem DBBackend_Search_differs :
  DB.FindById table_10k 1 = record_of store_one 1 ∧
  deref (heap store_one) <$> Search insertionSort [1] store_one "10k" =
    [mkComponent 1 "10k" "Resistor" "" "" ""] ∧
  DB.Search table_10k "10k" = [].
Proof. split_and!; by vm_compute. Qed.

(** ** [EditRecord] called alone *)

Lemma new_var_fresh (h : gmap loc Component) : h !! new_var h = None.
Proof. apply (not_elem_of_dom (D := gset loc)). unfold new_var. apply is_fresh. Qed.

Lemma new_var_ne (h : gmap loc Component) (p : loc) :
  is_Some (h !! p) → p ≠ new_var h.
Proof. intros [c Hc] ->. rewrite new_var_fresh in Hc. discriminate. Qed.

(** The record [EditRecord] hands to [update]. *)
Lemma EditRecord_unfold (s : InMemoryStore) (i : Z) (update : ModifyFun) :
  let found := FindById s i in
  let toEdit := new_var (heap s) in
  let read := match found with
              | Some p => deref (heap s) p
              | None => empty_Component i
              end in
  EditRecord s i update =
  if (update read).2
  then (mkStore (<[toEdit := set_id i (update read).1]> (heap s))
          (<[i := toEdit]> (id2Component s)), (true, ""))
  else (mkStore (<[toEdit := (update read).1]> (heap s)) (id2Component s),
        (true, "")).
Proof.
  intros found toEdit read.
  unfold EditRecord, EditRecord_read, EditRecord_update, EditRecord_commit.
  simpl. subst read found toEdit. unfold deref, FindById.
  rewrite !lookup_total_insert_eq, !insert_insert_eq.
  destruct (update _) as [c [|]]; simpl; [|done].
  by rewrite decide_True.
Qed.

Lemma EditRecord_true (s : InMemoryStore) (i : Z) (update : ModifyFun) :
  let read := match FindById s i with
              | Some p => deref (heap s) p
              | None => empty_Component i
              end in
  (update read).2 = true →
  (EditRecord s i update).2 = (true, "") ∧
  FindById (EditRecord s i update).1 i = Some (new_var (heap s)) ∧
  record_of (EditRecord s i update).1 i = Some (set_id i (update read).1).
Proof.
  intros read Hb. rewrite EditRecord_unfold. fold read. rewrite Hb.
  unfold record_of, FindById. simpl.
  rewrite lookup_insert_eq. simpl. by rewrite lookup_insert_eq.
Qed.

Lemma DB_EditRecord_id_modified (d : gmap Z DB.Row) (i : Z)
  (update : ModifyFun) (now : Z) (err : option string) :
  let before := default (empty_Component i) (DB.FindById d i) in
  (update before).2 = true → id (update before).1 ≠ i →
  DB.EditRecord d i update now err = (d, (false, "ID was modified")).
Proof.
  intros before Hb Hid. unfold DB.EditRecord.
  replace (match DB.FindById d i with
           | Some r => r
           | None => empty_Component i
           end) with before by (unfold before; by destruct (DB.FindById d i)).
  destruct (update before) as [rec b]. simpl in *. subst b.
  by rewrite decide_True.
Qed.

Lemma DB_EditRecord_no_change (d : gmap Z DB.Row) (i : Z)
  (update : ModifyFun) (now : Z) (err : option string) :
  let before := default (empty_Component i) (DB.FindById d i) in
  update before = (before, true) → id before = i →
  DB.EditRecord d i update now err = (d, (true, "No change")).
Proof.
  intros before Hu Hid. unfold DB.EditRecord.
  replace (match DB.FindById d i with
           | Some r => r
           | None => empty_Component i
           end) with before by (unfold before; by destruct (DB.FindById d i)).
  rewrite Hu. rewrite decide_False by (intros H; by apply H).
  by rewrite decide_True.
Qed.

(** C2, as amended: [DBBackend.EditRecord] rejects an update that returns
    true after altering the id, with committed=false, the message "ID was
    modified" and no write.  [InMemoryStore.EditRecord] does not reject
    it: it puts the id back and commits the rest of the update, so the
    record stored under an id always carries that id. *)
Theorem EditRecord_id_altered (i : Z) (update : ModifyFun) :
  (∀ d now err,
     let before := default (empty_Component i) (DB.FindById d i) in
     (update before).2 = true → id (update before).1 ≠ i →
     DB.EditRecord d i update now err = (d, (false, "ID was modified"))) ∧
  (∀ s,
     let read := match FindById s i with
                 | Some p => deref (heap s) p
                 | None => empty_Component i
                 end in
     (update read).2 = true →
     (EditRecord s i update).2 = (true, "") ∧
     record_of (EditRecord s i update).1 i = Some (set_id i (update read).1)).
Proof.
  split.
  - intros d now err. apply DB_EditRecord_id_modified.
  - intros s read Hb. by destruct (EditRecord_true s i update Hb) as (? & _ & ?).
Qed.

Lemma EditRecord_id_altered_witness :
  DB.EditRecord table_10k 1 (renumber 8) 5 None =
    (table_10k, (false, "ID was modified")) ∧
  (EditRecord store_one 1 (renumber 8)).2 = (true, "") ∧
  record_of (EditRecord store_one 1 (renumber 8)).1 1 =
    Some (mkComponent 1 "10k" "Resistor" "" "" "").
Proof.
  destruct (EditRecord_id_altered 1 (renumber 8)) as [Hdb Hmem].
  split; [apply Hdb; by vm_compute|].
  destruct (Hmem store_one) as [H1 H2]; [by vm_compute|].
  split; [exact H1|]. rewrite H2. by vm_compute.
Defined.

(** C2, as stated, fails on the in-memory backend: the update function
    [renumber 8] returns true after writing 8 to the id of record 7;
    [EditRecord] reports committed=true and the map has a new entry. *)
Lemma InMemoryStore_commits_altered_id :
  let read := empty_Component 7 in
  (renumber 8 read).2 = true ∧ id (renumber 8 read).1 ≠ 7 ∧
  FindById NewInMemoryStore 7 = None ∧
  (EditRecord NewInMemoryStore 7 (renumber 8)).2 = (true, "") ∧
  FindById (EditRecord NewInMemoryStore 7 (renumber 8)).1 7 = Some 0%nat ∧
  record_of (EditRecord NewInMemoryStore 7 (renumber 8)).1 7 =
    Some (empty_Component 7).
Proof. split_and!; by vm_compute. Qed.

(** An update that changes nothing and returns true still replaces the
    entry of the map. *)
Lemma EditRecord_keep_rewrites (s : InMemoryStore) (i : Z) (p : loc) :
  FindById s i = Some p → is_Some (heap s !! p) →
  (EditRecord s i keep).2 = (true, "") ∧
  FindById (EditRecord s i keep).1 i ≠ FindById s i.
Proof.
  intros Hf Hp.
  destruct (EditRecord_true s i keep) as (H1 & H2 & H3); [done|].
  split; [done|].
  rewrite H2, Hf. intros [= E]. by apply (new_var_ne _ _ Hp).
Qed.

(** C3: record 1 exists and the update function [keep] returns true
    without changing anything.  [DBBackend.EditRecord] answers "No change"
    and leaves the table alone; [InMemoryStore.EditRecord] answers
    committed=true too, but stores a new pointer under id 1. *)
Theorem InMemoryStore_rewrites_unchanged_record :
  keep (deref (heap store_one) 0) = (deref (heap store_one) 0, true) ∧
  DB.EditRecord table_10k 1 keep 5 None = (table_10k, (true, "No change")) ∧
  (EditRecord store_one 1 keep).2 = (true, "") ∧
  FindById store_one 1 = Some 0%nat ∧
  FindById (EditRecord store_one 1 keep).1 1 = Some 1%nat ∧
  id2Component (EditRecord store_one 1 keep).1 ≠ id2Component store_one ∧
  record_of (EditRecord store_one 1 keep).1 1 = record_of store_one 1.
Proof.
  split_and!; by vm_compute.
Qed.

(** What that costs: goroutine 1 reads record 1, goroutine 2 then commits
    an update that changes nothing, and goroutine 1 is turned away with
    a conflict although the content it read is still the content
    stored. *)
Lemma unchanged_commit_causes_conflict :
  let c := after [Call 0 1 (form_update "Resistor" "10k" "" "");
                  Update 0; Commit 0;
                  Call 1 1 (form_update "Resistor" "10k" "1%" "");
                  Call 2 1 keep; Update 2; Commit 2;
                  Update 1; Commit 1] in
  threads c !! 2%nat = Some (Returned true "") ∧
  threads c !! 1%nat = Some (Returned false conflict_msg) ∧
  record_of (store c) 1 = Some (mkComponent 1 "10k" "Resistor" "" "" "").
Proof. split_and!; by vm_compute. Qed.

(** ** Concurrent calls: the invariant *)

Lemma heap_insert_is_Some (h : gmap loc Component) (l p : loc) (c : Component) :
  is_Some (h !! p) → is_Some (<[l := c]> h !! p).
Proof. rewrite lookup_insert_is_Some. destruct (decide (l = p)); auto. Qed.

Lemma Inv_idle : Inv idle.
Proof. split; simpl; intros *; by rewrite lookup_empty. Qed.

Lemma step_Call (c c' : Config) (t : nat) (i : Z) (update : ModifyFun) :
  step c (Call t i update) = Some c' →
  (∀ th, threads c !! t = Some th → toEdit_of th = None) ∧
  c' = mkConfig (EditRecord_read (store c) i).1
         (<[t := AtUpdate i update (id2Component (store c) !! i)
                   (new_var (heap (store c)))]> (threads c)).
Proof.
  simpl. intros Hs. split.
  - intros th E. rewrite E in Hs. by destruct th.
  - destruct (threads c !! t) as [[]|]; by simplify_eq.
Qed.

Lemma step_Update (c c' : Config) (t : nat) :
  step c (Update t) = Some c' →
  ∃ i update found toEdit,
    threads c !! t = Some (AtUpdate i update found toEdit) ∧
    c' = mkConfig (EditRecord_update (store c) toEdit update).1
           (<[t := if (EditRecord_update (store c) toEdit update).2
                   then AtCommit i found toEdit
                   else Returned true ""]> (threads c)).
Proof.
  simpl. intros Hs.
  destruct (threads c !! t) as [[i update found toEdit| |]|]; try done.
  exists i, update, found, toEdit. split; [done|]. by simplify_eq.
Qed.

Lemma step_Commit (c c' : Config) (t : nat) :
  step c (Commit t) = Some c' →
  ∃ i found toEdit,
    threads c !! t = Some (AtCommit i found toEdit) ∧
    c' = mkConfig (EditRecord_commit (store c) i found toEdit).1
           (<[t := Returned (EditRecord_commit (store c) i found toEdit).2.1
                     (EditRecord_commit (store c) i found toEdit).2.2]>
              (threads c)).
Proof.
  simpl. intros Hs.
  destruct (threads c !! t) as [[|i found toEdit|]|]; try done.
  exists i, found, toEdit. split; [done|].
  destruct (EditRecord_commit (store c) i found toEdit) as [s [ok msg]].
  by simplify_eq.
Qed.

Lemma Inv_step (c c' : Config) (a : action) :
  Inv c → step c a = Some c' → Inv c'.
Proof.
  intros [H1 H2 H3 H4] Hs. destruct a as [t i update|t|t].
  - apply step_Call in Hs as [Hidle ->]. split; simpl.
    + intros j p Hj. apply heap_insert_is_Some. eauto.
    + intros t' th l [[<- <-]|[Hne Ht]]%lookup_insert_Some Hl; simpl in Hl.
      * injection Hl as <-. rewrite lookup_insert_eq. eauto.
      * apply heap_insert_is_Some. eauto.
    + intros t' th l j [[<- <-]|[Hne Ht]]%lookup_insert_Some Hl Hj;
        simpl in Hl.
      * injection Hl as <-. apply H1 in Hj. by apply new_var_ne in Hj.
      * by eapply H3.
    + intros t1 t2 th1 th2 l [[<- <-]|[Hne1 Ht1]]%lookup_insert_Some
        [[<- <-]|[Hne2 Ht2]]%lookup_insert_Some Hl1 Hl2; simpl in *.
      * done.
      * injection Hl1 as <-. exfalso.
        eapply new_var_ne; [eapply H2; eauto | done].
      * injection Hl2 as <-. exfalso.
        eapply new_var_ne; [eapply H2; eauto | done].
      * eapply H4; eauto.
  - apply step_Update in Hs as (i & update & found & toEdit & Ht & ->).
    assert (∀ l,
      toEdit_of (if (EditRecord_update (store c) toEdit update).2
                 then AtCommit i found toEdit else Returned true "") = Some l →
      l = toEdit) as Hsame.
    { intros l. destruct (EditRecord_update _ _ _).2; simpl; congruence. }
    split; simpl.
    + intros j p Hj. apply heap_insert_is_Some. eauto.
    + intros t' th l [[<- <-]|[Hne Ht']]%lookup_insert_Some Hl.
      * apply Hsame in Hl as ->.
        rewrite lookup_insert_eq. eauto.
      * apply heap_insert_is_Some. eauto.
    + intros t' th l j [[<- <-]|[Hne Ht']]%lookup_insert_Some Hl Hj.
      * apply Hsame in Hl as ->. by eapply H3.
      * by eapply H3.
    + intros t1 t2 th1 th2 l [[<- <-]|[Hne1 Ht1]]%lookup_insert_Some
        [[<- <-]|[Hne2 Ht2]]%lookup_insert_Some Hl1 Hl2.
      * done.
      * apply Hsame in Hl1 as ->. eapply H4; eauto.
      * apply Hsame in Hl2 as ->. eapply H4; eauto.
      * eapply H4; eauto.
  - apply step_Commit in Hs as (i & found & toEdit & Ht & ->).
    unfold EditRecord_commit.
    destruct (decide (id2Component (store c) !! i = found)) as [Hsame|Hmoved];
      split; simpl.
    + intros j p [[<- <-]|[Hne Hj]]%lookup_insert_Some.
      * rewrite lookup_insert_eq. eauto.
      * apply heap_insert_is_Some. eauto.
    + intros t' th l [[<- <-]|[Hne Ht']]%lookup_insert_Some Hl; [done|].
      apply heap_insert_is_Some. eauto.
    + intros t' th l j [[<- <-]|[Hne Ht']]%lookup_insert_Some Hl; [done|].
      intros [[<- <-]|[Hnej Hj]]%lookup_insert_Some.
      * apply Hne. eapply H4; eauto.
      * by eapply H3.
    + intros t1 t2 th1 th2 l [[<- <-]|[Hne1 Ht1]]%lookup_insert_Some
        [[<- <-]|[Hne2 Ht2]]%lookup_insert_Some Hl1 Hl2; try done.
      eapply H4; eauto.
    + intros j p Hj. apply heap_insert_is_Some. eauto.
    + intros t' th l [[<- <-]|[Hne Ht']]%lookup_insert_Some Hl; [done|].
      apply heap_insert_is_Some. eauto.
    + intros t' th l j [[<- <-]|[Hne Ht']]%lookup_insert_Some Hl; [done|].
      by eapply H3.
    + intros t1 t2 th1 th2 l [[<- <-]|[Hne1 Ht1]]%lookup_insert_Some
        [[<- <-]|[Hne2 Ht2]]%lookup_insert_Some Hl1 Hl2; try done.
      eapply H4; eauto.
Qed.

Lemma Inv_run (sched : list action) (c c' : Config) :
  Inv c → run c sched = Some c' → Inv c'.
Proof.
  revert c. induction sched as [|a sched IH]; intros c HI Hr; simpl in Hr.
  - by simplify_eq.
  - destruct (step c a) as [c1|] eqn:E; [|done]. simpl in Hr.
    eapply IH; [|done]. by eapply Inv_step.
Qed.

(** ** Concurrent calls: a commit in between is noticed *)

Lemma unseen_read (c c' : Config) (t : nat) (i : Z) (update : ModifyFun) :
  Inv c → step c (Call t i update) = Some c' →
  unseen c' (id2Component (store c) !! i) ∧
  threads c' !! t = Some (AtUpdate i update (id2Component (store c) !! i)
                            (new_var (heap (store c)))).
Proof.
  intros [H1 H2 H3 H4] [Hidle ->]%step_Call. split; [split|]; simpl.
  - intros p Hp. apply heap_insert_is_Some. eauto.
  - intros t' th l [[<- <-]|[Hne Ht]]%lookup_insert_Some Hl Hf; simpl in Hl.
    + injection Hl as <-. apply H1 in Hf. by apply new_var_ne in Hf.
    + by eapply H3.
  - by rewrite lookup_insert_eq.
Qed.

Lemma unseen_step (c c' : Config) (a : action) (found : option loc) :
  unseen c found → step c a = Some c' → unseen c' found.
Proof.
  intros [Hal Hun] Hs. destruct a as [t i update|t|t].
  - apply step_Call in Hs as [Hidle ->]. split; simpl.
    + intros p Hp. apply heap_insert_is_Some. eauto.
    + intros t' th l [[<- <-]|[Hne Ht]]%lookup_insert_Some Hl Hf; simpl in Hl.
      * injection Hl as <-. apply Hal in Hf. by apply new_var_ne in Hf.
      * by eapply Hun.
  - apply step_Update in Hs as (i & update & fnd & toEdit & Ht & ->).
    split; simpl.
    + intros p Hp. apply heap_insert_is_Some. eauto.
    + intros t' th l [[<- <-]|[Hne Ht']]%lookup_insert_Some Hl.
      * eapply (Hun t); [done|]. simpl.
        destruct (update _).2; simpl in *; congruence.
      * by eapply Hun.
  - apply step_Commit in Hs as (i & fnd & toEdit & Ht & ->).
    split; simpl.
    + intros p Hp. unfold EditRecord_commit. case_decide; simpl;
        apply heap_insert_is_Some; eauto.
    + intros t' th l [[<- <-]|[Hne Ht']]%lookup_insert_Some Hl; [done|].
      by eapply Hun.
Qed.

Lemma moved_step (c c' : Config) (a : action) (i : Z) (found : option loc) :
  unseen c found → moved c i found → step c a = Some c' → moved c' i found.
Proof.
  intros [Hal Hun] Hm Hs. unfold moved in *. destruct a as [t j update|t|t].
  - by apply step_Call in Hs as [Hidle ->].
  - by apply step_Update in Hs as (j & update & fnd & toEdit & Ht & ->).
  - apply step_Commit in Hs as (j & fnd & toEdit & Ht & ->).
    unfold EditRecord_commit. case_decide; simpl; [|done].
    destruct (decide (j = i)) as [->|Hne].
    + rewrite lookup_insert_eq. intros Hf. by eapply (Hun t).
    + by rewrite lookup_insert_ne.
Qed.

(** A commit that reports success has stored its own variable. *)
Lemma commit_moves (c c' : Config) (t : nat) (i : Z) (fnd found : option loc)
  (toEdit : loc) :
  unseen c found →
  threads c !! t = Some (AtCommit i fnd toEdit) →
  step c (Commit t) = Some c' →
  threads c' !! t = Some (Returned true "") →
  moved c' i found.
Proof.
  intros [Hal Hun] Ht Hs Hret.
  apply step_Commit in Hs as (j & fnd' & toEdit' & Ht' & ->).
  rewrite Ht in Ht'. injection Ht' as <- <- <-.
  simpl in Hret. rewrite lookup_insert_eq in Hret.
  unfold moved, EditRecord_commit in *.
  case_decide; simpl in *; [|discriminate].
  rewrite lookup_insert_eq. intros Hf. by eapply (Hun t).
Qed.

Lemma pending_step (c c' : Config) (a : action) (t : nat) (i : Z)
  (found : option loc) (toEdit : loc) :
  pending c t i found toEdit → (actor a = t → a = Update t) →
  step c a = Some c' → pending c' t i found toEdit.
Proof.
  intros (th & Hth & Hcall) Ha Hs. unfold pending.
  destruct (decide (actor a = t)) as [Heq|Hne].
  - rewrite (Ha Heq) in Hs.
    apply step_Update in Hs as (j & update & fnd & l & Ht & ->). simpl.
    rewrite lookup_insert_eq. eexists; split; [done|].
    rewrite Hth in Ht. injection Ht as ->.
    destruct Hcall as [Hcall|]; [|done].
    destruct (update _).2; [left | by right]. exact Hcall.
  - exists th. split; [|done].
    destruct a as [t' j update|t'|t']; simpl in Hne.
    + apply step_Call in Hs as [_ ->]. simpl. by rewrite lookup_insert_ne.
    + apply step_Update in Hs as (j & update & fnd & l & Ht & ->). simpl.
      by rewrite lookup_insert_ne.
    + apply step_Commit in Hs as (j & fnd & l & Ht & ->). simpl.
      by rewrite lookup_insert_ne.
Qed.

Lemma run_keeps (sched : list action) (c c' : Config) (t : nat) (i : Z)
  (found : option loc) (toEdit : loc) :
  unseen c found → pending c t i found toEdit → only_updates t sched →
  run c sched = Some c' →
  unseen c' found ∧ pending c' t i found toEdit ∧
  (moved c i found → moved c' i found).
Proof.
  revert c. induction sched as [|a sched IH]; intros c Hun Hp Ho Hr;
    simpl in Hr.
  - by simplify_eq.
  - destruct (step c a) as [c1|] eqn:E; [|done]. simpl in Hr.
    destruct (IH c1) as (Hun' & Hp' & Hm'); [..|done|].
    + by eapply unseen_step.
    + eapply pending_step; [done| |done]. apply Ho. by left.
    + intros b Hb. apply Ho. by right.
    + split_and!; [done..|]. intros Hm. apply Hm'.
      exact (moved_step c c1 a i found Hun Hm E).
Qed.

(** A rejected commit leaves every record as it was. *)
Lemma commit_rejected (c : Config) (i : Z) (found : option loc) (toEdit : loc)
  (t : nat) :
  Inv c → threads c !! t = Some (AtCommit i found toEdit) →
  moved c i found →
  ∃ c', step c (Commit t) = Some c' ∧
        threads c' !! t = Some (Returned false conflict_msg) ∧
        id2Component (store c') = id2Component (store c) ∧
        ∀ j, record_of (store c') j = record_of (store c) j.
Proof.
  intros [H1 H2 H3 H4] Ht Hm. unfold moved in Hm.
  eexists. simpl. rewrite Ht. unfold EditRecord_commit.
  rewrite decide_False by done. split; [done|]. simpl.
  split; [by rewrite lookup_insert_eq|]. split; [done|].
  intros j. unfold record_of, FindById. simpl.
  destruct (id2Component (store c) !! j) as [p|] eqn:E; simpl; [|done].
  rewrite lookup_insert_ne; [done|].
  intros <-. by eapply (H3 t _ toEdit j).
Qed.

(** C1: goroutine [tA] calls [EditRecord] on [i] and reads the entry.
    Before it commits, goroutine [tB] commits an [EditRecord] on the same
    [i] (and anything else may happen, in [s1] and [s2]).  Then the
    commit of [tA] is rejected with committed=false and the conflict
    message, and it changes no record of the store. *)
Theorem EditRecord_interleaved_commit_rejected
  (c0 c1 c2 c3 c4 : Config) (tA tB : nat) (i : Z) (updA : ModifyFun)
  (s1 s2 : list action) (foundA foundB : option loc) (lA lB : loc) :
  Inv c0 →
  step c0 (Call tA i updA) = Some c1 →
  run c1 s1 = Some c2 →
  threads c2 !! tB = Some (AtCommit i foundB lB) →
  step c2 (Commit tB) = Some c3 →
  threads c3 !! tB = Some (Returned true "") →
  run c3 s2 = Some c4 →
  tA ≠ tB → only_updates tA (s1 ++ s2) →
  threads c4 !! tA = Some (AtCommit i foundA lA) →
  ∃ c5, step c4 (Commit tA) = Some c5 ∧
        threads c5 !! tA = Some (Returned false conflict_msg) ∧
        id2Component (store c5) = id2Component (store c4) ∧
        ∀ j, record_of (store c5) j = record_of (store c4) j.
Proof.
  intros HI0 Hcall Hr1 HtB HcB HretB Hr2 Hne Honly HtA.
  assert (Inv c4) as HI4.
  { eapply Inv_run; [|exact Hr2]. eapply Inv_step; [|exact HcB].
    eapply Inv_run; [|exact Hr1]. by eapply Inv_step. }
  destruct (unseen_read _ _ _ _ _ HI0 Hcall) as [Hun1 Ht1].
  set (found := id2Component (store c0) !! i) in *.
  set (l := new_var (heap (store c0))) in *.
  assert (pending c1 tA i found l) as Hp1 by (eexists; split; [done | by left]).
  destruct (run_keeps s1 c1 c2 tA i found l) as (Hun2 & Hp2 & _); [done..| |done|].
  { intros a Ha. apply Honly. apply elem_of_app. by left. }
  assert (unseen c3 found) as Hun3
    by exact (unseen_step c2 c3 (Commit tB) found Hun2 HcB).
  assert (pending c3 tA i found l) as Hp3.
  { eapply pending_step; [done| |done]. simpl. congruence. }
  assert (moved c3 i found) as Hm3
    by exact (commit_moves c2 c3 tB i foundB found lB Hun2 HtB HcB HretB).
  destruct (run_keeps s2 c3 c4 tA i found l) as (_ & Hp4 & Hm4); [done..| |done|].
  { intros a Ha. apply Honly. apply elem_of_app. by right. }
  destruct Hp4 as (th & Hth & Hc). rewrite HtA in Hth. injection Hth as <-.
  destruct Hc as [Hc|]; [|done]. simpl in Hc. injection Hc as -> ->.
  apply (commit_rejected c4 i found l tA HI4 HtA). by apply Hm4.
Qed.

Lemma EditRecord_interleaved_commit_rejected_witness :
  let updA := form_update "Resistor" "10k" "" "" in
  let updB := form_update "Resistor" "12k" "" "" in
  let c4 := after [Call 0 1 updA; Call 1 1 updB; Update 1; Commit 1;
                   Update 0] in
  ∃ c5, step c4 (Commit 0) = Some c5 ∧
        threads c5 !! 0%nat = Some (Returned false conflict_msg) ∧
        id2Component (store c5) = id2Component (store c4) ∧
        ∀ j, record_of (store c5) j = record_of (store c4) j.
Proof.
  intros updA updB c4.
  apply (EditRecord_interleaved_commit_rejected
           idle
           (after [Call 0 1 updA])
           (after [Call 0 1 updA; Call 1 1 updB; Update 1])
           (after [Call 0 1 updA; Call 1 1 updB; Update 1; Commit 1])
           c4 0%nat 1%nat 1 updA
           [Call 1 1 updB; Update 1] [Update 0] None None 0%nat 1%nat).
  - split; simpl; intros *; by rewrite lookup_empty.
  - by vm_compute.
  - by vm_compute.
  - by vm_compute.
  - by vm_compute.
  - by vm_compute.
  - by vm_compute.
  - lia.
  - intros a Ha Hact. simpl in Ha. rewrite !elem_of_cons, elem_of_nil in Ha.
    destruct Ha as [->|[->|[->|[]]]]; done.
  - by vm_compute.
Defined.

(** ** Equivalence sets *)

Lemma equiv_set_of_alter (s : gmap Z EquivSet.Component) (i j e : Z) :
  EquivSet.equiv_set_of (alter (EquivSet.set_Equiv_set e) i s) j =
  if decide (i = j) then (λ _, e) <$> s !! j else EquivSet.equiv_set_of s j.
Proof.
  unfold EquivSet.equiv_set_of. rewrite lookup_alter.
  case_decide as E; [|done]. rewrite E. by destruct (s !! j).
Qed.

(** C9, as amended: after [JoinSet(A, B)] and then [LeaveSet(A)] the
    record of [A], if [A] has one, has [A] as its equiv_set, and an [A]
    without a record still has none; and when [B] is another id than [A],
    neither call changes the equiv_set of [B]. *)
Theorem JoinSet_LeaveSet_roundtrip (s : gmap Z EquivSet.Component) (A B : Z) :
  EquivSet.equiv_set_of (EquivSet.LeaveSet (EquivSet.JoinSet s A B) A) A =
    match s !! A with Some _ => Some A | None => None end ∧
  (A ≠ B →
   EquivSet.equiv_set_of (EquivSet.JoinSet s A B) B =
     EquivSet.equiv_set_of s B ∧
   EquivSet.equiv_set_of (EquivSet.LeaveSet (EquivSet.JoinSet s A B) A) B =
     EquivSet.equiv_set_of (EquivSet.JoinSet s A B) B).
Proof.
  unfold EquivSet.LeaveSet, EquivSet.JoinSet. split.
  - rewrite equiv_set_of_alter, decide_True by done.
    rewrite lookup_alter, decide_True by done. by destruct (s !! A).
  - intros Hne. by rewrite !equiv_set_of_alter, !decide_False by done.
Qed.

Lemma JoinSet_LeaveSet_roundtrip_witness :
  EquivSet.equiv_set_of EquivSet.shelf 1 = Some 2 ∧
  EquivSet.equiv_set_of (EquivSet.JoinSet EquivSet.shelf 1 3) 1 = Some 3 ∧
  EquivSet.equiv_set_of
    (EquivSet.LeaveSet (EquivSet.JoinSet EquivSet.shelf 1 3) 1) 1 = Some 1 ∧
  EquivSet.equiv_set_of (EquivSet.JoinSet EquivSet.shelf 1 3) 3 =
    EquivSet.equiv_set_of EquivSet.shelf 3 ∧
  EquivSet.equiv_set_of
    (EquivSet.LeaveSet (EquivSet.JoinSet EquivSet.shelf 1 3) 1) 3 =
    EquivSet.equiv_set_of (EquivSet.JoinSet EquivSet.shelf 1 3) 3.
Proof.
  destruct (JoinSet_LeaveSet_roundtrip EquivSet.shelf 1 3) as [H1 H2].
  split; [by vm_compute|]. split; [by vm_compute|].
  split; [rewrite H1; by vm_compute|].
  apply H2. lia.
Defined.

(** C9, as stated for all ids, fails in two places.  When [B] is [A]
    itself: bin 1 is in the set 2, and [JoinSet(1, 1)] changes its
    equiv_set to 1.  And when [A] has no record: there is no bin 9, join
    and leave make none, and so no equiv_set of 9 is 9 afterwards. *)
Lemma JoinSet_self_changes_equiv_set :
  (EquivSet.equiv_set_of EquivSet.shelf 1 = Some 2 ∧
   EquivSet.equiv_set_of (EquivSet.JoinSet EquivSet.shelf 1 1) 1 = Some 1 ∧
   EquivSet.equiv_set_of (EquivSet.JoinSet EquivSet.shelf 1 1) 1 ≠
     EquivSet.equiv_set_of EquivSet.shelf 1) ∧
  (EquivSet.shelf !! 9 = None ∧
   EquivSet.equiv_set_of
     (EquivSet.LeaveSet (EquivSet.JoinSet EquivSet.shelf 9 1) 9) 9 = None ∧
   EquivSet.equiv_set_of
     (EquivSet.LeaveSet (EquivSet.JoinSet EquivSet.shelf 9 1) 9) 9 ≠ Some 9).
Proof. split; split_and!; by vm_compute. Qed.

(** * Further properties of the stores *)

(** ** What [InMemoryStore] keeps true *)

Lemma keyed_stored_ne (s : InMemoryStore) (i : Z) (p : loc) :
  keyed s → id2Component s !! i = Some p → p ≠ new_var (heap s).
Proof.
  intros Hk Hp. destruct (Hk i p Hp) as (c & Hc & _).
  apply new_var_ne. by exists c.
Qed.

Lemma keyed_write_private (h : gmap loc Component) (m : gmap Z loc) (l : loc)
  (c : Component) :
  keyed (mkStore h m) → (∀ j, m !! j ≠ Some l) →
  keyed (mkStore (<[l := c]> h) m).
Proof.
  intros Hk Hl j p Hj. simpl in *. destruct (Hk j p Hj) as (r & Hr & Hid).
  exists r. split; [|done]. rewrite lookup_insert_ne; [done|].
  intros <-. by apply (Hl j).
Qed.

Lemma keyed_store_private (h : gmap loc Component) (m : gmap Z loc) (l : loc)
  (i : Z) (c : Component) :
  keyed (mkStore h m) → (∀ j, m !! j ≠ Some l) → id c = i →
  keyed (mkStore (<[l := c]> h) (<[i := l]> m)).
Proof.
  intros Hk Hl Hid j p. simpl.
  intros [[<- <-]|[Hne Hj]]%lookup_insert_Some.
  - exists c. by rewrite lookup_insert_eq.
  - destruct (Hk j p Hj) as (r & Hr & Hidr). exists r. split; [|done].
    rewrite lookup_insert_ne; [done|]. intros <-. by apply (Hl j).
Qed.

Lemma keyed_eta (s : InMemoryStore) :
  keyed s → keyed (mkStore (heap s) (id2Component s)).
Proof. by destruct s. Qed.

Lemma keyed_step (c c' : Config) (a : action) :
  Inv c → keyed (store c) → step c a = Some c' → keyed (store c').
Proof.
  intros [H1 H2 H3 H4] Hk%keyed_eta Hs. destruct a as [t i update|t|t].
  - apply step_Call in Hs as [Hidle ->]. simpl.
    apply keyed_write_private; [done|].
    intros j Hj. apply H1 in Hj. by apply new_var_ne in Hj.
  - apply step_Update in Hs as (i & update & found & toEdit & Ht & ->).
    simpl. apply keyed_write_private; [done|].
    intros j. by eapply (H3 t _ toEdit j).
  - apply step_Commit in Hs as (i & found & toEdit & Ht & ->).
    unfold EditRecord_commit. case_decide; simpl.
    + apply keyed_store_private; [done| |done].
      intros j. by eapply (H3 t _ toEdit j).
    + apply keyed_write_private; [done|].
      intros j. by eapply (H3 t _ toEdit j).
Qed.

Lemma keyed_run (sched : list action) (c c' : Config) :
  Inv c → keyed (store c) → run c sched = Some c' →
  Inv c' ∧ keyed (store c').
Proof.
  revert c. induction sched as [|a sched IH]; intros c HI Hk Hr; simpl in Hr.
  - by simplify_eq.
  - destruct (step c a) as [c1|] eqn:E; [|done]. simpl in Hr.
    eapply IH; [| |done]; [by eapply Inv_step | by eapply keyed_step].
Qed.

Lemma keyed_idle : keyed (store idle).
Proof. intros i p. simpl. by rewrite lookup_empty. Qed.

Lemma run_ext_no_poke (sched : list event) (c c' : Config) :
  no_poke sched → Inv c → keyed (store c) → run_ext c sched = Some c' →
  Inv c' ∧ keyed (store c').
Proof.
  revert c. induction sched as [|e sched IH]; intros c Hn HI Hk Hr;
    simpl in Hr.
  - by simplify_eq.
  - destruct (step_ext c e) as [c1|] eqn:E; [|done]. simpl in Hr.
    assert (no_poke sched) as Hn'
      by (intros l r Hin; apply (Hn l r); by right).
    destruct e as [a|l r]; simpl in E.
    + apply (IH c1 Hn'); [by eapply Inv_step | by eapply keyed_step | done].
    + exfalso. apply (Hn l r). by left.
Qed.

(** X1: as long as nobody writes through a kept pointer (update functions
    write to their record only while they run, and callers heed "Don't
    modify the returned pointer"), in every state the program reaches
    from the new store, whatever the goroutines did, a pointer that
    [FindById] returns points to a record, and that record carries the id
    it was looked up under. *)
Theorem FindById_record_has_id (sched : list event) (c : Config) (i : Z)
  (p : loc) :
  run_ext idle sched = Some c → no_poke sched →
  FindById (store c) i = Some p →
  ∃ r, heap (store c) !! p = Some r ∧ id r = i ∧
       record_of (store c) i = Some r.
Proof.
  intros Hr Hn Hp.
  destruct (run_ext_no_poke sched idle c Hn Inv_idle keyed_idle Hr) as [_ Hk].
  destruct (Hk i p Hp) as (r & Hr' & Hid). exists r. split_and!; [done..|].
  unfold record_of. rewrite Hp. done.
Qed.

Lemma FindById_record_has_id_witness :
  ∃ r, heap (store (after_ext [Act (Call 0 7 (renumber 8)); Act (Update 0);
                               Act (Commit 0)])) !! 0%nat = Some r ∧
       id r = 7 ∧
       record_of (store (after_ext [Act (Call 0 7 (renumber 8));
                                    Act (Update 0); Act (Commit 0)])) 7
         = Some r.
Proof.
  apply (FindById_record_has_id
           [Act (Call 0 7 (renumber 8)); Act (Update 0); Act (Commit 0)]).
  - by vm_compute.
  - intros l r Hin.
    repeat (apply elem_of_cons in Hin as [Hin|Hin]; [discriminate|]).
    by apply elem_of_nil in Hin.
  - by vm_compute.
Defined.

(** Without that proviso the id is not kept: the caller of the first
    line keeps the pointer it was given and, after the commit, writes a
    record with the id 99 through it; the record under the id 1 then
    carries 99. *)
Lemma kept_pointer_rewrites_stored_record :
  let c := after_ext [Act (Call 0 1 keep); Act (Update 0); Act (Commit 0);
                      Poke 0 (empty_Component 99)] in
  FindById (store c) 1 = Some 0%nat ∧
  record_of (store c) 1 = Some (empty_Component 99).
Proof. split; by vm_compute. Qed.

(** X2: two ids never share a pointer: in every reachable state the
    pointers stored under different ids are different. *)
Theorem id2Component_injective (sched : list action) (c : Config) (i j : Z)
  (p q : loc) :
  run idle sched = Some c → i ≠ j →
  FindById (store c) i = Some p → FindById (store c) j = Some q → p ≠ q.
Proof.
  intros Hr Hne Hi Hj ->.
  destruct (keyed_run sched idle c Inv_idle keyed_idle Hr) as [_ Hk].
  destruct (Hk i q Hi) as (r & Hr1 & <-).
  destruct (Hk j q Hj) as (r' & Hr2 & <-). congruence.
Qed.

Lemma id2Component_injective_witness : (0 ≠ 1)%nat.
Proof.
  apply (id2Component_injective
           [Call 0 1 keep; Update 0; Commit 0; Call 0 2 keep; Update 0; Commit 0]
           (after [Call 0 1 keep; Update 0; Commit 0;
                   Call 0 2 keep; Update 0; Commit 0]) 1 2 0%nat 1%nat);
    by vm_compute.
Defined.

(** ** What [InMemoryStore] never does *)

Lemma step_keeps_entries (c c' : Config) (a : action) (i : Z) :
  step c a = Some c' → is_Some (FindById (store c) i) →
  is_Some (FindById (store c') i).
Proof.
  unfold FindById. intros Hs Hi. destruct a as [t j update|t|t].
  - by apply step_Call in Hs as [_ ->].
  - by apply step_Update in Hs as (j & update & fnd & l & _ & ->).
  - apply step_Commit in Hs as (j & fnd & l & _ & ->).
    unfold EditRecord_commit. case_decide; simpl; [|done].
    rewrite lookup_insert_is_Some. destruct (decide (j = i)); auto.
Qed.

(** X3: no record is ever removed: once [FindById] finds an id, it finds
    it in every later state. *)
Theorem FindById_stays (sched : list action) (c c' : Config) (i : Z) :
  run c sched = Some c' → is_Some (FindById (store c) i) →
  is_Some (FindById (store c') i).
Proof.
  revert c. induction sched as [|a sched IH]; intros c Hr Hi; simpl in Hr.
  - by simplify_eq.
  - destruct (step c a) as [c1|] eqn:E; [|done]. simpl in Hr.
    eapply IH; [done|]. by eapply step_keeps_entries.
Qed.

Lemma FindById_stays_witness :
  is_Some (FindById
             (store (after [Call 0 1 keep; Update 0; Commit 0;
                            Call 1 1 (renumber 3); Update 1; Commit 1])) 1).
Proof.
  apply (FindById_stays [Call 1 1 (renumber 3); Update 1; Commit 1]
           (after [Call 0 1 keep; Update 0; Commit 0])).
  - by vm_compute.
  - eexists. by vm_compute.
Defined.

Lemma unseen_heap_step (c c' : Config) (a : action) (p : loc) :
  unseen c (Some p) → step c a = Some c' →
  heap (store c') !! p = heap (store c) !! p.
Proof.
  intros [Hal Hun] Hs. destruct a as [t i update|t|t].
  - apply step_Call in Hs as [_ ->]. simpl.
    rewrite lookup_insert_ne; [done|].
    intros E. symmetry in E. revert E. apply new_var_ne. by apply Hal.
  - apply step_Update in Hs as (i & update & fnd & l & Ht & ->). simpl.
    rewrite lookup_insert_ne; [done|]. intros ->. by eapply (Hun t).
  - apply step_Commit in Hs as (i & fnd & l & Ht & ->).
    unfold EditRecord_commit. case_decide; simpl;
      (rewrite lookup_insert_ne; [done|]); intros ->; by eapply (Hun t).
Qed.

Lemma stored_unseen (c : Config) (i : Z) (p : loc) :
  Inv c → FindById (store c) i = Some p → unseen c (Some p).
Proof.
  intros [H1 H2 H3 H4] Hp. split.
  - intros q [= <-]. by eapply H1.
  - intros t th l Ht Hl [= ->]. by eapply (H3 t th l i).
Qed.

Lemma unseen_heap_run (sched : list action) (c c' : Config) (p : loc) :
  unseen c (Some p) → run c sched = Some c' →
  heap (store c') !! p = heap (store c) !! p.
Proof.
  revert c. induction sched as [|a sched IH]; intros c Hun Hr; simpl in Hr.
  - by simplify_eq.
  - destruct (step c a) as [c1|] eqn:E; [|done]. simpl in Hr.
    rewrite (IH c1); [by eapply unseen_heap_step| |done].
    by eapply unseen_step.
Qed.

Lemma Inv_step_ext (c c' : Config) (e : event) :
  Inv c → step_ext c e = Some c' → Inv c'.
Proof.
  intros HI Hs. destruct e as [a|l r]; simpl in Hs; [by eapply Inv_step|].
  destruct (heap (store c) !! l) eqn:E; [|done]. injection Hs as <-.
  destruct HI as [H1 H2 H3 H4]. split; simpl; eauto.
  - intros i p Hp. apply heap_insert_is_Some. eauto.
  - intros t th l' Ht Hl. apply heap_insert_is_Some. eauto.
Qed.

Lemma Inv_run_ext (sched : list event) (c c' : Config) :
  Inv c → run_ext c sched = Some c' → Inv c'.
Proof.
  revert c. induction sched as [|e sched IH]; intros c HI Hr; simpl in Hr.
  - by simplify_eq.
  - destruct (step_ext c e) as [c1|] eqn:E; [|done]. simpl in Hr.
    eapply IH; [|done]. by eapply Inv_step_ext.
Qed.

Lemma unseen_step_ext (c c' : Config) (e : event) (found : option loc) :
  unseen c found → step_ext c e = Some c' → unseen c' found.
Proof.
  intros Hun Hs. destruct e as [a|l r]; simpl in Hs;
    [by eapply unseen_step|].
  destruct (heap (store c) !! l) eqn:E; [|done]. injection Hs as <-.
  destruct Hun as [Hal Hun]. split; simpl; [|done].
  intros p Hp. apply heap_insert_is_Some. eauto.
Qed.

Lemma unseen_heap_run_ext (sched : list event) (c c' : Config) (p : loc) :
  unseen c (Some p) → no_poke_at p sched → run_ext c sched = Some c' →
  heap (store c') !! p = heap (store c) !! p.
Proof.
  revert c. induction sched as [|e sched IH]; intros c Hun Hn Hr;
    simpl in Hr.
  - by simplify_eq.
  - destruct (step_ext c e) as [c1|] eqn:E; [|done]. simpl in Hr.
    rewrite (IH c1); [| |intros r Hin; apply (Hn r); by right|done].
    + destruct e as [a|l r]; simpl in E; [by eapply unseen_heap_step|].
      destruct (heap (store c) !! l) eqn:El; [|done]. injection E as <-.
      simpl. rewrite lookup_insert_ne; [done|].
      intros ->. apply (Hn r). by left.
    + by eapply unseen_step_ext.
Qed.

(** X4: the store itself never writes to a record it has stored.  The
    record behind a pointer that [FindById] returned changes only if a
    caller writes through that very pointer: calls of [EditRecord] on any
    id, also those that replace the entry of its id, and writes through
    other pointers leave it what it was. *)
Theorem stored_record_never_changes (sched0 sched : list event)
  (c c' : Config) (i : Z) (p : loc) :
  run_ext idle sched0 = Some c → FindById (store c) i = Some p →
  run_ext c sched = Some c' → no_poke_at p sched →
  heap (store c') !! p = heap (store c) !! p.
Proof.
  intros Hr0 Hp Hr Hn. eapply unseen_heap_run_ext; [|done..].
  eapply stored_unseen; [|done]. by eapply Inv_run_ext; [apply Inv_idle|].
Qed.

Lemma stored_record_never_changes_witness :
  heap (store (after_ext
                 [Act (Call 0 1 (form_update "Resistor" "10k" "" ""));
                  Act (Update 0); Act (Commit 0);
                  Act (Call 1 1 (form_update "Resistor" "12k" "" ""));
                  Act (Update 1); Poke 1 (empty_Component 5);
                  Act (Commit 1)])) !! 0%nat =
  heap (store (after_ext
                 [Act (Call 0 1 (form_update "Resistor" "10k" "" ""));
                  Act (Update 0); Act (Commit 0)])) !! 0%nat.
Proof.
  apply (stored_record_never_changes
           [Act (Call 0 1 (form_update "Resistor" "10k" "" ""));
            Act (Update 0); Act (Commit 0)]
           [Act (Call 1 1 (form_update "Resistor" "12k" "" ""));
            Act (Update 1); Poke 1 (empty_Component 5); Act (Commit 1)]
           _ _ 1).
  - by vm_compute.
  - by vm_compute.
  - by vm_compute.
  - intros r Hin.
    repeat (apply elem_of_cons in Hin as [Hin|Hin]; [discriminate|]).
    by apply elem_of_nil in Hin.
Defined.

Lemma untouched_step (c c' : Config) (a : action) (i : Z) :
  (∀ t update, a ≠ Call t i update) →
  FindById (store c) i = None →
  (∀ t th j f l, threads c !! t = Some th →
                 call_of th = Some (j, f, l) → j ≠ i) →
  step c a = Some c' →
  FindById (store c') i = None ∧
  (∀ t th j f l, threads c' !! t = Some th →
                 call_of th = Some (j, f, l) → j ≠ i).
Proof.
  unfold FindById. intros Ha Hi Hth Hs. destruct a as [t j update|t|t].
  - apply step_Call in Hs as [_ ->]. simpl. split; [done|].
    intros t' th j' f l [[<- <-]|[Hne Ht]]%lookup_insert_Some Hc.
    + simpl in Hc. injection Hc as <- <- <-. intros ->. by eapply Ha.
    + by eapply Hth.
  - apply step_Update in Hs as (j & update & fnd & l & Ht & ->). simpl.
    split; [done|].
    intros t' th j' f l' [[<- <-]|[Hne Ht']]%lookup_insert_Some Hc.
    + eapply (Hth t); [done|]. simpl.
      destruct (update _).2; simpl in *; [done | discriminate].
    + by eapply Hth.
  - apply step_Commit in Hs as (j & fnd & l & Ht & ->).
    assert (j ≠ i) as Hne by (by eapply (Hth t)).
    split.
    + unfold EditRecord_commit. case_decide; simpl; [|done].
      by rewrite lookup_insert_ne.
    + simpl.
      intros t' th j' f l' [[<- <-]|[Hne' Ht']]%lookup_insert_Some Hc;
        [done|]. by eapply Hth.
Qed.

(** X5: an id on which [EditRecord] was never called is absent: whatever
    the goroutines did to other ids, [FindById] returns nil for it. *)
Theorem FindById_never_written (sched : list action) (c : Config) (i : Z) :
  run idle sched = Some c → never_called i sched →
  FindById (store c) i = None.
Proof.
  intros Hr Hn.
  assert (∀ c0, FindById (store c0) i = None →
            (∀ t th j f l, threads c0 !! t = Some th →
                           call_of th = Some (j, f, l) → j ≠ i) →
            run c0 sched = Some c → FindById (store c) i = None) as H.
  { clear Hr. induction sched as [|a sched IH]; intros c0 Hi Hth Hr;
      simpl in Hr.
    - by simplify_eq.
    - destruct (step c0 a) as [c1|] eqn:E; [|done]. simpl in Hr.
      destruct (untouched_step c0 c1 a i) as [Hi1 Hth1]; [|done..|].
      + intros t update ->. apply (Hn t update). by left.
      + apply (IH (λ t update Hin, Hn t update (list_elem_of_further _ _ _ Hin))
                 c1 Hi1 Hth1 Hr). }
  apply (H idle); [done| |done].
  intros t th j f l. simpl. by rewrite lookup_empty.
Qed.

Lemma FindById_never_written_witness :
  FindById (store (after [Call 0 1 keep; Call 1 3 keep; Update 0; Commit 0;
                          Update 1; Commit 1])) 2 = None.
Proof.
  apply (FindById_never_written
           [Call 0 1 keep; Call 1 3 keep; Update 0; Commit 0;
            Update 1; Commit 1]).
  - by vm_compute.
  - intros t update Hin.
    repeat (apply elem_of_cons in Hin as [Hin|Hin]; [discriminate|]).
    by apply elem_of_nil in Hin.
Defined.

(** ** A commit that nothing came between *)

Lemma entry_kept_step (c c' : Config) (a : action) (i : Z) :
  step c a = Some c' → commit_id c a ≠ Some i →
  id2Component (store c') !! i = id2Component (store c) !! i.
Proof.
  intros Hs Hc. destruct a as [t j update|t|t].
  - by apply step_Call in Hs as [_ ->].
  - by apply step_Update in Hs as (j & update & fnd & l & _ & ->).
  - apply step_Commit in Hs as (j & fnd & l & Ht & ->).
    simpl in Hc. rewrite Ht in Hc.
    unfold EditRecord_commit. case_decide; simpl; [|done].
    rewrite lookup_insert_ne; [done | congruence].
Qed.

Lemma entry_kept_run (sched : list action) (c c' : Config) (i : Z) :
  run c sched = Some c' → leaves_alone i c sched = true →
  id2Component (store c') !! i = id2Component (store c) !! i.
Proof.
  revert c. induction sched as [|a sched IH]; intros c Hr Hl; simpl in *.
  - by simplify_eq.
  - destruct (step c a) as [c1|] eqn:E; [|done]. simpl in Hr.
    apply andb_prop in Hl as [Ha%bool_decide_eq_true Hl].
    rewrite (IH c1 Hr Hl). by eapply entry_kept_step.
Qed.

Lemma in_call_step (c c' : Config) (a : action) (t : nat) (i : Z)
  (update : ModifyFun) (found : option loc) (l : loc) (read : Component) :
  Inv c → in_call c t i update found l read →
  (actor a = t → a = Update t) → step c a = Some c' →
  in_call c' t i update found l read.
Proof.
  intros [H1 H2 H3 H4] Hin Ha Hs. unfold in_call in *.
  destruct (decide (actor a = t)) as [Heq|Hne].
  - rewrite (Ha Heq) in Hs.
    apply step_Update in Hs as (j & u & fnd & l' & Ht & ->). simpl.
    rewrite lookup_insert_eq.
    destruct Hin as [[Hth Hl]|[[Hth _]|Hth]]; rewrite Hth in Ht; [|done..].
    injection Ht as <- <- <- <-. unfold deref.
    rewrite (lookup_total_correct _ _ _ Hl).
    destruct (update read).2; [right; left | by right; right].
    split; [done|]. by rewrite lookup_insert_eq.
  - assert (threads c' !! t = threads c !! t ∧
            ∀ th r, threads c !! t = Some th → toEdit_of th = Some l →
                    heap (store c) !! l = Some r →
                    heap (store c') !! l = Some r) as [Hsame Hheap].
    { destruct a as [t' j u|t'|t']; simpl in Hne.
      - apply step_Call in Hs as [_ ->]. simpl.
        split; [by rewrite lookup_insert_ne|].
        intros th r _ _ Hl. rewrite lookup_insert_ne; [done|].
        intros E. symmetry in E. revert E. apply new_var_ne. by eexists.
      - apply step_Update in Hs as (j & u & fnd & l' & Ht' & ->). simpl.
        split; [by rewrite lookup_insert_ne|].
        intros th r Hth Hto Hl. rewrite lookup_insert_ne; [done|].
        intros ->. apply Hne. by eapply (H4 t' t _ th l).
      - apply step_Commit in Hs as (j & fnd & l' & Ht' & ->). simpl.
        split; [by rewrite lookup_insert_ne|].
        intros th r Hth Hto Hl.
        unfold EditRecord_commit. case_decide; simpl;
          (rewrite lookup_insert_ne; [done|]);
          intros ->; apply Hne; by eapply (H4 t' t _ th l). }
    rewrite Hsame.
    destruct Hin as [[Hth Hl]|[[Hth Hl]|Hth]].
    + left. split; [done|]. by eapply Hheap.
    + right; left. split; [done|]. by eapply Hheap.
    + by right; right.
Qed.

Lemma in_call_run (sched : list action) (c c' : Config) (t : nat) (i : Z)
  (update : ModifyFun) (found : option loc) (l : loc) (read : Component) :
  Inv c → in_call c t i update found l read → only_updates t sched →
  run c sched = Some c' → in_call c' t i update found l read.
Proof.
  revert c. induction sched as [|a sched IH]; intros c HI Hin Ho Hr;
    simpl in Hr.
  - by simplify_eq.
  - destruct (step c a) as [c1|] eqn:E; [|done]. simpl in Hr.
    apply (IH c1); [by eapply Inv_step| | |done].
    + eapply in_call_step; [done..| |done]. apply Ho. by left.
    + intros b Hb. apply Ho. by right.
Qed.

(** X6: a call of [EditRecord(i, updA)] during which no other call
    commits on [i] is not turned away: whatever else runs in between
    (calls and updates on any id, commits on other ids), its commit
    reports committed=true, and the record of [i] becomes what [updA]
    made of the record that the call read, with the id set to [i]. *)
Theorem EditRecord_commit_accepted (c0 c1 c4 : Config) (tA : nat) (i : Z)
  (updA : ModifyFun) (sched : list action) (found : option loc) (l : loc) :
  Inv c0 →
  step c0 (Call tA i updA) = Some c1 →
  run c1 sched = Some c4 →
  leaves_alone i c1 sched = true → only_updates tA sched →
  threads c4 !! tA = Some (AtCommit i found l) →
  ∃ c5, step c4 (Commit tA) = Some c5 ∧
        threads c5 !! tA = Some (Returned true "") ∧
        FindById (store c5) i = Some l ∧
        record_of (store c5) i =
          Some (set_id i (updA (read_of (store c0) i)).1).
Proof.
  intros HI0 Hcall Hr Hl Honly HtA.
  assert (Inv c1) as HI1 by (by eapply Inv_step).
  destruct (unseen_read _ _ _ _ _ HI0 Hcall) as [_ Ht1].
  assert (in_call c1 tA i updA (id2Component (store c0) !! i)
            (new_var (heap (store c0))) (read_of (store c0) i)) as Hin1.
  { left. split; [done|].
    apply step_Call in Hcall as [_ ->]. simpl. by rewrite lookup_insert_eq. }
  pose proof (in_call_run sched c1 c4 tA i updA _ _ _ HI1 Hin1 Honly Hr)
    as [[Hth _]|[[Hth Hheap]|Hth]]; rewrite HtA in Hth; [done| |done].
  injection Hth as -> ->.
  assert (id2Component (store c4) !! i = id2Component (store c0) !! i) as He.
  { rewrite (entry_kept_run sched c1 c4 i Hr Hl).
    by apply step_Call in Hcall as [_ ->]. }
  eexists. simpl. rewrite HtA. unfold EditRecord_commit.
  rewrite decide_True by done. split; [done|]. simpl.
  split; [by rewrite lookup_insert_eq|].
  unfold record_of, FindById. simpl. rewrite lookup_insert_eq. simpl.
  split; [done|]. rewrite lookup_insert_eq. unfold deref.
  by rewrite (lookup_total_correct _ _ _ Hheap).
Qed.

Lemma EditRecord_commit_accepted_witness :
  let updA := form_update "Resistor" "10k" "" "" in
  let updB := form_update "LED" "red" "" "" in
  let c4 := after [Call 0 1 updA; Call 1 2 updB; Update 1; Commit 1;
                   Call 2 1 keep; Update 0] in
  ∃ c5, step c4 (Commit 0) = Some c5 ∧
        threads c5 !! 0%nat = Some (Returned true "") ∧
        FindById (store c5) 1 = Some 0%nat ∧
        record_of (store c5) 1 =
          Some (set_id 1 (updA (read_of (store idle) 1)).1).
Proof.
  intros updA updB c4.
  apply (EditRecord_commit_accepted idle (after [Call 0 1 updA]) c4 0%nat 1
           updA [Call 1 2 updB; Update 1; Commit 1; Call 2 1 keep; Update 0]
           None 0%nat).
  - apply Inv_idle.
  - by vm_compute.
  - by vm_compute.
  - by vm_compute.
  - intros a Ha Hact. rewrite !elem_of_cons, elem_of_nil in Ha.
    destruct Ha as [->|[->|[->|[->|[->|[]]]]]]; done.
  - by vm_compute.
Defined.

(** The record of that example, spelled out. *)
Lemma EditRecord_commit_accepted_example :
  set_id 1 (form_update "Resistor" "10k" "" "" (read_of (store idle) 1)).1 =
  mkComponent 1 "10k" "Resistor" "" "" "".
Proof. by vm_compute. Qed.

(** ** [EditRecord] called alone, on a store with records *)

Lemma keyed_New : keyed NewInMemoryStore.
Proof. intros i p. simpl. by rewrite lookup_empty. Qed.

Lemma EditRecord_keyed (s : InMemoryStore) (i : Z) (update : ModifyFun) :
  keyed s → keyed (EditRecord s i update).1.
Proof.
  intros Hk. rewrite EditRecord_unfold.
  assert (∀ j, id2Component s !! j ≠ Some (new_var (heap s))) as Hfresh.
  { intros j Hj. by eapply keyed_stored_ne. }
  apply keyed_eta in Hk.
  destruct (update _).2; simpl.
  - by apply keyed_store_private.
  - by apply keyed_write_private.
Qed.

Lemma record_of_write_private (s : InMemoryStore) (m : gmap Z loc)
  (c : Component) (j : Z) :
  keyed s → m !! j = id2Component s !! j →
  record_of (mkStore (<[new_var (heap s) := c]> (heap s)) m) j = record_of s j.
Proof.
  intros Hk Hm. unfold record_of, FindById. simpl. rewrite Hm.
  destruct (id2Component s !! j) as [p|] eqn:E; simpl; [|done].
  rewrite lookup_insert_ne; [done|]. symmetry. by eapply keyed_stored_ne.
Qed.

(** X7: when the update function returns false, [EditRecord] reports
    committed=true and the store is as before: the same pointers in the
    map and the same record under every id. *)
Theorem EditRecord_declined (s : InMemoryStore) (i : Z) (update : ModifyFun) :
  let read := match FindById s i with
              | Some p => deref (heap s) p
              | None => empty_Component i
              end in
  keyed s → (update read).2 = false →
  (EditRecord s i update).2 = (true, "") ∧
  id2Component (EditRecord s i update).1 = id2Component s ∧
  ∀ j, record_of (EditRecord s i update).1 j = record_of s j.
Proof.
  intros read Hk Hb. rewrite EditRecord_unfold. fold read. rewrite Hb. simpl.
  split_and!; [done..|]. intros j. by apply record_of_write_private.
Qed.

Lemma EditRecord_declined_witness :
  (EditRecord store_one 1 (λ c, (set_id 9 c, false))).2 = (true, "") ∧
  id2Component (EditRecord store_one 1 (λ c, (set_id 9 c, false))).1 =
    id2Component store_one ∧
  ∀ j, record_of (EditRecord store_one 1 (λ c, (set_id 9 c, false))).1 j =
       record_of store_one j.
Proof.
  apply (EditRecord_declined store_one 1 (λ c, (set_id 9 c, false))).
  - apply EditRecord_keyed, keyed_New.
  - by vm_compute.
Defined.

(** X8: [EditRecord] on the id [i] changes nothing under another id:
    the pointer and the record of every [j] other than [i] are as before,
    whatever the update function does and returns. *)
Theorem EditRecord_other_ids (s : InMemoryStore) (i j : Z)
  (update : ModifyFun) :
  keyed s → j ≠ i →
  FindById (EditRecord s i update).1 j = FindById s j ∧
  record_of (EditRecord s i update).1 j = record_of s j.
Proof.
  intros Hk Hne. rewrite EditRecord_unfold.
  destruct (update _).2; simpl.
  - split; [unfold FindById; simpl; by rewrite lookup_insert_ne|].
    apply record_of_write_private; [done|]. by rewrite lookup_insert_ne.
  - split; [done|]. by apply record_of_write_private.
Qed.

Lemma EditRecord_other_ids_witness :
  FindById (EditRecord store_10k 2 (form_update "LED" "red" "" "")).1 1 =
    FindById store_10k 1 ∧
  record_of (EditRecord store_10k 2 (form_update "LED" "red" "" "")).1 1 =
    record_of store_10k 1.
Proof.
  apply (EditRecord_other_ids store_10k 2 1 (form_update "LED" "red" "" "")).
  - apply EditRecord_keyed, EditRecord_keyed, keyed_New.
  - lia.
Defined.

(** ** More on the score and on [Search] *)

Lemma StringScore_pos_iff (needle haystack : string) :
  0 < StringScore needle haystack ↔ substring_of needle haystack.
Proof.
  destruct (StringScore_cases needle haystack)
    as [[Hn ->]|[[Ho ->]|(Hs & _ & ->)]].
  - split; [lia | done].
  - split; [intros _; by exists 0%nat | lia].
  - split; [done | lia].
Qed.

(** X9: the score is between 0 and 12, and it is 0 exactly when the term
    occurs in none of category, value and description; quantity and notes
    play no part. *)
Theorem MatchScore_range (c : Component) (term : string) :
  0 ≤ MatchScore c term ≤ 12 ∧
  (0 < MatchScore c term ↔
   substring_of term (category c) ∨ substring_of term (value c) ∨
   substring_of term (description c)).
Proof.
  unfold MatchScore.
  pose proof (StringScore_range term (category c)).
  pose proof (StringScore_range term (value c)).
  pose proof (StringScore_range term (description c)).
  split; [lia|]. rewrite <- !StringScore_pos_iff. lia.
Qed.

(** X10: [ScoreList.Less] is a strict weak ordering, which is what
    [sort.Sort] needs of it: irreflexive, transitive, and being unordered
    either way (equal score) is transitive too. *)
Theorem Less_strict_weak_order :
  (∀ a, Less a a = false) ∧
  (∀ a b c, Less a b = true → Less b c = true → Less a c = true) ∧
  (∀ a b c, Less a b = false → Less b a = false →
            Less b c = false → Less c b = false →
            Less a c = false ∧ Less c a = false).
Proof.
  unfold Less. split_and!.
  - intros a. destruct (Z.gtb_spec (score a) (score a)); [lia | done].
  - intros a b c.
    destruct (Z.gtb_spec (score a) (score b)); [|done].
    destruct (Z.gtb_spec (score b) (score c)); [|done].
    destruct (Z.gtb_spec (score a) (score c)); [done | lia].
  - intros a b c.
    destruct (Z.gtb_spec (score a) (score b)); [done|].
    destruct (Z.gtb_spec (score b) (score a)); [done|].
    destruct (Z.gtb_spec (score b) (score c)); [done|].
    destruct (Z.gtb_spec (score c) (score b)); [done|].
    destruct (Z.gtb_spec (score a) (score c)); [lia|].
    destruct (Z.gtb_spec (score c) (score a)); [lia | done].
Qed.

Lemma Less_strict_weak_order_witness :
  Less (mkScored 6 0) (mkScored 3 2) = true.
Proof.
  destruct Less_strict_weak_order as (_ & Htrans & _).
  apply (Htrans _ (mkScored 4 1)); reflexivity.
Defined.

Section SearchResults.
Variable sort_Sort : list ScoredComponent → list ScoredComponent.
Hypothesis sort_Sort_perm : ∀ data, sort_Sort data ≡ₚ data.

Lemma stored_NoDup (s : InMemoryStore) : keyed s → NoDup (stored s).
Proof.
  intros Hk. unfold stored. apply NoDup_fmap_2_strong.
  - intros [i p] [j q] Hi%elem_of_map_to_list Hj%elem_of_map_to_list.
    simpl. intros ->.
    destruct (Hk i q Hi) as (r & Hr & <-).
    destruct (Hk j q Hj) as (r' & Hr' & <-). congruence.
  - apply NoDup_map_to_list.
Qed.

(** X11: [Search] lists no component twice. *)
Theorem Search_NoDup (visit : list Z) (s : InMemoryStore) (term : string) :
  keyed s → range_order s visit →
  NoDup (Search sort_Sort visit s term).
Proof.
  intros Hk Hv. rewrite (Search_stored sort_Sort sort_Sort_perm _ _ _ Hv).
  by apply NoDup_filter, stored_NoDup.
Qed.

(** X12: the component stored under an id is in the result of [Search]
    exactly when the term occurs in its category, its value or its
    description. *)
Theorem Search_finds (visit : list Z) (s : InMemoryStore) (term : string)
  (i : Z) (p : loc) :
  range_order s visit → FindById s i = Some p →
  p ∈ Search sort_Sort visit s term ↔
  substring_of term (category (deref (heap s) p)) ∨
  substring_of term (value (deref (heap s) p)) ∨
  substring_of term (description (deref (heap s) p)).
Proof.
  intros Hv Hp. rewrite (Search_stored sort_Sort sort_Sort_perm _ _ _ Hv).
  rewrite list_elem_of_filter. unfold score_at.
  rewrite (proj2 (MatchScore_range _ _)).
  assert (p ∈ stored s) as Hin.
  { unfold stored. apply list_elem_of_fmap. exists (i, p).
    split; [done|]. by apply elem_of_map_to_list. }
  tauto.
Qed.
End SearchResults.

Lemma Search_NoDup_witness :
  NoDup (Search insertionSort [2; 1] store_twins "10k").
Proof.
  apply (Search_NoDup insertionSort insertionSort_perm).
  - apply EditRecord_keyed, EditRecord_keyed, keyed_New.
  - range_by_compute.
Defined.

Lemma Search_finds_witness :
  1%nat ∈ Search insertionSort [1; 2] store_10k "Net" ↔
  substring_of "Net" (category (deref (heap store_10k) 1)) ∨
  substring_of "Net" (value (deref (heap store_10k) 1)) ∨
  substring_of "Net" (description (deref (heap store_10k) 1)).
Proof.
  apply (Search_finds insertionSort insertionSort_perm [1; 2] store_10k
           "Net" 2 1%nat).
  - range_by_compute.
  - by vm_compute.
Defined.

(** ** [DBBackend] *)

Lemma emptyIfNull_nullIfEmpty (s : string) :
  DB.emptyIfNull (DB.nullIfEmpty s) = s.
Proof. unfold DB.nullIfEmpty. by case_decide. Qed.

(** X13: a string survives the way into a nullable column and back, the
    empty string as NULL; the other way round only a stored empty string
    is not kept apart from NULL. *)
Theorem null_round_trip :
  (∀ s, DB.emptyIfNull (DB.nullIfEmpty s) = s) ∧
  (∀ o, DB.nullIfEmpty (DB.emptyIfNull o) = o ↔ o ≠ Some "").
Proof.
  split; [apply emptyIfNull_nullIfEmpty|].
  intros [s|]; simpl; unfold DB.nullIfEmpty; case_decide; split;
    congruence || done.
Qed.

Lemma DB_before_id (d : gmap Z DB.Row) (i : Z) :
  id (default (empty_Component i) (DB.FindById d i)) = i.
Proof. unfold DB.FindById. by destruct (d !! i). Qed.

Lemma DB_EditRecord_steps (d : gmap Z DB.Row) (i : Z) (update : ModifyFun)
  (now : Z) (err : option string) :
  DB.EditRecord d i update now err =
  DBSteps.write d i (DBSteps.read d i).1 (DBSteps.read d i).2
    (update (DBSteps.read d i).2).1 (update (DBSteps.read d i).2).2 now err.
Proof.
  unfold DB.EditRecord, DBSteps.read, DBSteps.write.
  destruct (DB.FindById d i) as [r|]; simpl; by destruct (update _).
Qed.

Lemma DB_read_before (d : gmap Z DB.Row) (i : Z) :
  (DBSteps.read d i).2 = default (empty_Component i) (DB.FindById d i) ∧
  (DBSteps.read d i).1 = bool_decide (d !! i = None).
Proof.
  unfold DBSteps.read, DB.FindById.
  destruct (d !! i); simpl; split; done.
Qed.

Lemma DB_FindById_written (d : gmap Z DB.Row) (i : Z) (rec : Component)
  (cr up : option Z) :
  id rec = i →
  DB.FindById
    (<[i := DB.mkRow cr up
              (DB.nullIfEmpty (category rec)) (DB.nullIfEmpty (value rec))
              (DB.nullIfEmpty (description rec)) (DB.nullIfEmpty (notes rec))
              (DB.nullIfEmpty (quantity rec))]> d) i = Some rec.
Proof.
  intros <-. unfold DB.FindById. rewrite lookup_insert_eq. simpl.
  rewrite !emptyIfNull_nullIfEmpty. by destruct rec.
Qed.

Lemma DB_updateRecord_insert (d : gmap Z DB.Row) (i now : Z) (rec : Component)
  (row : DB.Row) :
  d !! i = Some row →
  DB.updateRecord d i now rec =
  <[i := DB.mkRow (DB.created row) (Some now)
           (DB.nullIfEmpty (category rec)) (DB.nullIfEmpty (value rec))
           (DB.nullIfEmpty (description rec)) (DB.nullIfEmpty (notes rec))
           (DB.nullIfEmpty (quantity rec))]> d.
Proof.
  intros Hrow. unfold DB.updateRecord. apply map_eq. intros j.
  rewrite lookup_alter. case_decide as E.
  - subst j. by rewrite lookup_insert_eq, Hrow.
  - by rewrite lookup_insert_ne.
Qed.

Lemma DB_EditRecord_written (d : gmap Z DB.Row) (i : Z)
  (update : ModifyFun) (now : Z) :
  let before := default (empty_Component i) (DB.FindById d i) in
  (update before).2 = true → id (update before).1 = i →
  (update before).1 ≠ before →
  (DB.EditRecord d i update now None).2 = (true, "") ∧
  DB.FindById (DB.EditRecord d i update now None).1 i =
    Some (update before).1.
Proof.
  intros before Hb Hid Hne. rewrite DB_EditRecord_steps.
  destruct (DB_read_before d i) as [-> ->]. fold before.
  unfold DBSteps.write. rewrite Hb.
  rewrite decide_False by (intros H; by apply H).
  rewrite decide_False by done. split; [done|]. simpl.
  destruct (d !! i) as [row|] eqn:E.
  - rewrite bool_decide_eq_false_2 by done.
    rewrite (DB_updateRecord_insert _ _ _ _ row E).
    by apply DB_FindById_written.
  - rewrite bool_decide_eq_true_2 by done. by apply DB_FindById_written.
Qed.

Lemma DB_EditRecord_stored (d : gmap Z DB.Row) (i : Z)
  (update : ModifyFun) (now : Z) :
  let before := default (empty_Component i) (DB.FindById d i) in
  (update before).2 = true → id (update before).1 = i →
  (update before).1 ≠ before ∨ is_Some (d !! i) →
  (DB.EditRecord d i update now None).2.1 = true ∧
  DB.FindById (DB.EditRecord d i update now None).1 i =
    Some (update before).1.
Proof.
  intros before Hb Hid Hor.
  destruct (decide ((update before).1 = before)) as [Heq|Hne].
  - destruct Hor as [|[row Hrow]]; [done|].
    rewrite (DB_EditRecord_no_change d i update now None).
    + split; [done|]. simpl. rewrite Heq. unfold before, DB.FindById.
      by rewrite Hrow.
    + fold before. rewrite <- Heq at 2. rewrite <- Hb. by destruct (update before).
    + apply DB_before_id.
  - destruct (DB_EditRecord_written d i update now Hb Hid Hne) as [H1 H2].
    split; [by rewrite H1 | done].
Qed.

(** X14: a committed edit is what [FindById] then returns: when the
    update function returns true and keeps the id, the statement does not
    fail, and the record is changed or has a row already, [EditRecord]
    reports committed=true and [FindById] returns the updated record,
    field by field, whether the row was inserted, updated or left. *)
Theorem DB_EditRecord_FindById (d : gmap Z DB.Row) (i : Z)
  (update : ModifyFun) (now : Z) (rec : Component) :
  update (default (empty_Component i) (DB.FindById d i)) = (rec, true) →
  id rec = i →
  rec ≠ default (empty_Component i) (DB.FindById d i) ∨ is_Some (d !! i) →
  (DB.EditRecord d i update now None).2.1 = true ∧
  DB.FindById (DB.EditRecord d i update now None).1 i = Some rec.
Proof.
  intros Hu Hid Hor.
  destruct (DB_EditRecord_stored d i update now) as [H1 H2];
    rewrite ?Hu; try done.
  by rewrite Hu in H2.
Qed.

Lemma DB_EditRecord_FindById_witness :
  (DB.EditRecord table_10k 1 (form_update "Resistor" "12k" "" "5%") 9 None).2.1
    = true ∧
  DB.FindById
    (DB.EditRecord table_10k 1 (form_update "Resistor" "12k" "" "5%") 9 None).1
    1 = Some (mkComponent 1 "12k" "Resistor" "" "" "5%").
Proof.
  apply (DB_EditRecord_FindById table_10k 1
           (form_update "Resistor" "12k" "" "5%") 9).
  - by vm_compute.
  - by vm_compute.
  - left. by vm_compute.
Defined.

(** X15: [EditRecord] on the id [i] leaves every other row of the table
    as it is. *)
Theorem DB_EditRecord_other_rows (d : gmap Z DB.Row) (i j : Z)
  (update : ModifyFun) (now : Z) (err : option string) :
  j ≠ i → (DB.EditRecord d i update now err).1 !! j = d !! j.
Proof.
  intros Hne. rewrite DB_EditRecord_steps. unfold DBSteps.write.
  destruct (update _).2; [|done].
  repeat case_decide; try done. destruct err; [done|].
  destruct (DBSteps.read d i).1; simpl.
  - unfold DB.insertRecord. by rewrite lookup_insert_ne.
  - unfold DB.updateRecord. by rewrite lookup_alter_ne.
Qed.

Lemma DB_EditRecord_other_rows_witness :
  (DB.EditRecord table_10k 2 (form_update "LED" "red" "" "") 9 None).1 !! 1 =
  table_10k !! 1.
Proof.
  apply (DB_EditRecord_other_rows table_10k 2 1). lia.
Defined.

Lemma DB_EditRecord_failed (d : gmap Z DB.Row) (i : Z) (update : ModifyFun)
  (now : Z) (e : string) :
  (DB.EditRecord d i update now (Some e)).1 = d.
Proof.
  rewrite DB_EditRecord_steps. unfold DBSteps.write.
  destruct (update _).2; [|done]. by repeat case_decide.
Qed.

(** X16: nothing is written unless [EditRecord] reports a commit: when
    it returns committed=false (the id was modified, or the statement
    failed), and when the update function returns false, the table is
    what it was. *)
Theorem DB_EditRecord_no_partial_write (d : gmap Z DB.Row) (i : Z)
  (update : ModifyFun) (now : Z) (err : option string) :
  ((DB.EditRecord d i update now err).2.1 = false →
   (DB.EditRecord d i update now err).1 = d) ∧
  ((update (default (empty_Component i) (DB.FindById d i))).2 = false →
   DB.EditRecord d i update now err = (d, (true, ""))) ∧
  (∀ e, err = Some e →
        (DB.EditRecord d i update now err).1 = d).
Proof.
  rewrite DB_EditRecord_steps. destruct (DB_read_before d i) as [-> _].
  unfold DBSteps.write. split_and!.
  - destruct (update _).2; [|done]. repeat case_decide; try done.
    by destruct err.
  - by intros ->.
  - intros e ->. destruct (update _).2; [|done]. by repeat case_decide.
Qed.

Lemma DB_EditRecord_no_partial_write_witness :
  (DB.EditRecord table_10k 1 (form_update "Resistor" "12k" "" "") 9
     (Some "database is locked")).1 = table_10k.
Proof.
  destruct (DB_EditRecord_no_partial_write table_10k 1
              (form_update "Resistor" "12k" "" "") 9
              (Some "database is locked")) as (H & _ & _).
  apply H. by vm_compute.
Defined.

(** X17: an update function that returns true and leaves the record as
    it was read is answered with committed=true and "No change", and the
    table is not written; for an id without a row that means that no row
    is created. *)
Theorem DB_EditRecord_unchanged (d : gmap Z DB.Row) (i : Z)
  (update : ModifyFun) (now : Z) (err : option string) :
  let before := default (empty_Component i) (DB.FindById d i) in
  update before = (before, true) →
  DB.EditRecord d i update now err = (d, (true, "No change")).
Proof.
  intros before Hu. apply DB_EditRecord_no_change; [done|].
  apply DB_before_id.
Qed.

Lemma DB_EditRecord_unchanged_witness :
  DB.EditRecord ∅ 4 (form_update "" "" "" "") 9 None = (∅, (true, "No change")).
Proof. apply (DB_EditRecord_unchanged ∅ 4). by vm_compute. Defined.

(** X18: the creation time of a row is written once: an edit of an
    existing row keeps the row and its [created] and can only set
    [updated] to the time of the edit; a row that an edit creates has the
    time of the edit as [created] and no [updated]. *)
Theorem DB_EditRecord_timestamps (d : gmap Z DB.Row) (i : Z)
  (update : ModifyFun) (now : Z) (err : option string) :
  (∀ row, d !! i = Some row →
     ∃ row', (DB.EditRecord d i update now err).1 !! i = Some row' ∧
             DB.created row' = DB.created row ∧
             (row' = row ∨ DB.updated row' = Some now)) ∧
  (d !! i = None →
     ∀ row', (DB.EditRecord d i update now err).1 !! i = Some row' →
             DB.created row' = Some now ∧ DB.updated row' = None).
Proof.
  rewrite DB_EditRecord_steps. destruct (DB_read_before d i) as [_ ->].
  unfold DBSteps.write. split.
  - intros row Hrow. rewrite bool_decide_eq_false_2 by congruence.
    destruct (update _).2; [|by eauto].
    repeat case_decide; eauto. destruct err; [by eauto|]. simpl.
    rewrite (DB_updateRecord_insert _ _ _ _ row Hrow), lookup_insert_eq.
    eexists. split; [done|]. simpl. auto.
  - intros Hnone row'. rewrite bool_decide_eq_true_2 by done.
    destruct (update _).2; [|simpl; by rewrite Hnone].
    repeat case_decide; try (simpl; by rewrite Hnone).
    destruct err; [simpl; by rewrite Hnone|]. simpl.
    unfold DB.insertRecord. rewrite lookup_insert_eq. by intros [= <-].
Qed.

Lemma DB_EditRecord_timestamps_witness :
  ∃ row', (DB.EditRecord table_10k 1 (form_update "Resistor" "12k" "" "") 9
             None).1 !! 1 = Some row' ∧
          DB.created row' = Some 0 ∧ DB.updated row' = Some 9.
Proof.
  destruct (DB_EditRecord_timestamps table_10k 1
              (form_update "Resistor" "12k" "" "") 9 None) as [H _].
  destruct (H (DB.mkRow (Some 0) None (Some "Resistor") (Some "10k")
                 None None None)) as (row' & Hrow' & Hc & Hu);
    [by vm_compute|].
  exists row'. split; [done|]. split; [done|].
  destruct Hu as [->|Hu]; [|done]. by vm_compute in Hrow'.
Defined.

(** X19: [DBBackend.EditRecord] does not notice a commit that comes
    between its read and its write.  Two calls read the same row; the
    first writes [r1]; the second then writes [r2] from what it read
    before: both report committed=true, and the row is [r2] alone. *)
Theorem DB_EditRecord_last_writer_wins (d : gmap Z DB.Row) (i : Z)
  (row : DB.Row) (r1 r2 : Component) (now1 now2 : Z) :
  let needsInsert := (DBSteps.read d i).1 in
  let before := (DBSteps.read d i).2 in
  let first := DBSteps.write d i needsInsert before r1 true now1 None in
  let second := DBSteps.write first.1 i needsInsert before r2 true now2 None in
  d !! i = Some row →
  id r1 = i → id r2 = i → r1 ≠ before → r2 ≠ before →
  first.2 = (true, "") ∧ DB.FindById first.1 i = Some r1 ∧
  second.2 = (true, "") ∧ DB.FindById second.1 i = Some r2.
Proof.
  intros needsInsert before first second Hrow Hid1 Hid2 Hne1 Hne2.
  subst first second needsInsert.
  destruct (DB_read_before d i) as [_ ->].
  rewrite bool_decide_eq_false_2 by congruence.
  unfold DBSteps.write.
  rewrite !decide_False by (done || (intros H; by apply H)). simpl.
  rewrite (DB_updateRecord_insert _ _ _ _ row Hrow).
  rewrite (DB_updateRecord_insert _ _ _ _ _ (lookup_insert_eq _ _ _)).
  split_and!; [done| |done|]; by apply DB_FindById_written.
Qed.

Lemma DB_EditRecord_last_writer_wins_witness :
  let r1 := mkComponent 1 "10k" "Resistor" "metal film" "" "" in
  let r2 := mkComponent 1 "10k" "Resistor" "" "" "drawer 3" in
  let first := DBSteps.write table_10k 1 false
                 (mkComponent 1 "10k" "Resistor" "" "" "") r1 true 5 None in
  let second := DBSteps.write first.1 1 false
                  (mkComponent 1 "10k" "Resistor" "" "" "") r2 true 6 None in
  first.2 = (true, "") ∧ DB.FindById first.1 1 = Some r1 ∧
  second.2 = (true, "") ∧ DB.FindById second.1 1 = Some r2.
Proof.
  intros r1 r2.
  apply (DB_EditRecord_last_writer_wins table_10k 1
           (DB.mkRow (Some 0) None (Some "Resistor") (Some "10k")
              None None None) r1 r2 5 6); by vm_compute.
Defined.

(** ** The form handler *)

(** X20: a request without the send field, or whose orig_id differs from
    its id, only reads: the handler leaves the store as it is, whichever
    backend it is. *)
Theorem entryFormHandler_read_only {Store : Type} `{!StuffStore Store}
  (Atoi : string → Z) (Itoa : Z → string) (store : Store)
  (r : Form.Request) :
  Form.form_send r = "" ∨ Form.form_orig_id r ≠ Form.form_id r →
  (Form.entryFormHandler Atoi Itoa store r).1 = store.
Proof.
  intros Hr.
  assert (Form.requestStore r = false) as Hf.
  { unfold Form.requestStore. destruct Hr as [Hs|Ho].
    - by rewrite bool_decide_eq_false_2 by (intros H; by apply H).
    - rewrite (bool_decide_eq_false_2 (_ = _)) by done.
      by rewrite andb_false_r. }
  unfold Form.entryFormHandler. rewrite Hf.
  by destruct (store_FindById store _).
Qed.

Lemma entryFormHandler_read_only_witness :
  (Form.entryFormHandler Form.parse Form.decimal store_one
     (Form.mkRequest "1" "" "1" "LED" "red" "" "")).1 = store_one.
Proof.
  apply entryFormHandler_read_only. by left.
Defined.

(** X21: when the statement of the database fails, the handler stores
    nothing, and it says so only if the next id has a record: if it has
    none, the message of the page is "Edit new item" with the next id,
    and the error is not shown. *)
Theorem entryFormHandler_failed_store (Atoi : string → Z) (Itoa : Z → string)
  (d : gmap Z DB.Row) (r : Form.Request) (now : Z) (e : string) :
  let next := Form.wrap (Atoi (Form.form_id r) + 1) in
  let res := @Form.entryFormHandler _ (DBBackend_StuffStore now (Some e))
               Atoi Itoa d r in
  Form.requestStore r = true →
  res.1 = d ∧
  (DB.FindById d next = None →
   Form.Msg res.2 = "Edit new item " +:+ Itoa next).
Proof.
  intros next res Hreq. subst res. unfold Form.entryFormHandler.
  rewrite Hreq. simpl.
  pose proof (DB_EditRecord_failed d (Atoi (Form.form_id r))
                (form_update (Form.form_category r) (Form.form_value r)
                   (Form.form_description r) (Form.form_notes r)) now e) as Hd.
  destruct (DB.EditRecord _ _ _ _ _) as [d' [ok msg]]. simpl in Hd. subst d'.
  fold next. destruct (DB.FindById d next); simpl; [done|]. done.
Qed.

Lemma entryFormHandler_failed_store_witness :
  let res := @Form.entryFormHandler _
               (DBBackend_StuffStore 9 (Some "database is locked"))
               Form.parse Form.decimal table_10k Form.request_1 in
  res.1 = table_10k ∧ Form.Msg res.2 = "Edit new item 2".
Proof.
  destruct (entryFormHandler_failed_store Form.parse Form.decimal table_10k
              Form.request_1 9 "database is locked") as [H1 H2];
    [by vm_compute|].
  split; [exact H1|]. rewrite H2; by vm_compute.
Defined.

(** X22: a store request that the database accepts puts the category,
    value, description and notes of the form into the record of the id,
    and keeps its id and its quantity; afterwards [FindById] returns that
    record.  (For an id without a row, a form with these four fields empty
    creates nothing.) *)
Theorem entryFormHandler_stores_form (Atoi : string → Z) (Itoa : Z → string)
  (d : gmap Z DB.Row) (r : Form.Request) (now : Z) :
  let i := Atoi (Form.form_id r) in
  let before := default (empty_Component i) (DB.FindById d i) in
  let rec := mkComponent i (Form.form_value r) (Form.form_category r)
               (Form.form_description r) (quantity before)
               (Form.form_notes r) in
  let res := @Form.entryFormHandler _ (DBBackend_StuffStore now None)
               Atoi Itoa d r in
  Form.requestStore r = true →
  rec ≠ before ∨ is_Some (d !! i) →
  DB.FindById res.1 i = Some rec.
Proof.
  intros i before rec res Hreq Hor. subst res. unfold Form.entryFormHandler.
  rewrite Hreq. simpl. fold i.
  assert (id before = i) as Hid by apply DB_before_id.
  destruct (DB_EditRecord_stored d i
              (form_update (Form.form_category r) (Form.form_value r)
                 (Form.form_description r) (Form.form_notes r)) now)
    as [_ Hf].
  - done.
  - simpl. apply DB_before_id.
  - simpl. fold before. by rewrite Hid.
  - simpl in Hf. fold before in Hf. rewrite Hid in Hf.
    destruct (DB.EditRecord _ _ _ _ _) as [d' [ok msg]]. simpl in *.
    by destruct (DB.FindById d' (Form.wrap (i + 1))).
Qed.

Lemma entryFormHandler_stores_form_witness :
  DB.FindById
    (@Form.entryFormHandler _ (DBBackend_StuffStore 9 None)
       Form.parse Form.decimal table_10k Form.request_1).1 1 =
  Some (mkComponent 1 "12k" "Resistor" "metal film" "" "drawer 3").
Proof.
  apply (entryFormHandler_stores_form Form.parse Form.decimal table_10k
           Form.request_1 9).
  - by vm_compute.
  - left. by vm_compute.
Defined.
